(** * freud: local descriptors and rotational autocorrelation

    A shallow embedding of [cpp/environment/LocalDescriptors.{h,cc}] and of
    [cpp/order/RotationalAutocorrelation.h].

    Conventions.
    - [unsigned int] and [size_t] values are numbers in [N]; the 32-bit
      wrap-around of [unsigned int] arithmetic is written out with [wrap32].
      [size_t] arithmetic is taken to be exact.
    - [float] is an abstract carrier [F] with the operations the code applies
      to it ([FloatOps]); nothing is assumed about rounding.
    - The collaborators that live outside these three files (box wrapping, the
      eigensolver, the fsph evaluator, quaternion algebra, the neighbour list
      queries) are operations of the interfaces below. *)

From Stdlib Require Import NArith ZArith Lia Bool List.
From Stdlib Require SpecFloat.
From stdpp Require Import base option list gmap sorting.

Local Open Scope N_scope.

(** ** Machine integers *)

Definition UINT_BOUND : N := 2 ^ 32.

(** The value kept by an [unsigned int] after an arithmetic operation. *)
Definition wrap32 (n : N) : N := n mod UINT_BOUND.

(** ** Numbers and vectors *)

(** The operations on [float] used by the two engines. *)
Class FloatOps (F : Type) := {
  f0 : F;                      (* 0 converted to float *)
  f1 : F;                      (* 1 converted to float *)
  f_pi : F;                    (* M_PI stored in a float *)
  fadd : F -> F -> F;
  fsub : F -> F -> F;
  fmul : F -> F -> F;
  fdiv : F -> F -> F;
  fsqrt : F -> F;
  facos : F -> F;
  fatan2 : F -> F -> F;
  fadd_2pi : F -> F;           (* theta += 2 * M_PI, stored back in a float *)
  flt : F -> F -> bool;        (* a < b *)
  fisnan : F -> bool;          (* std::isnan *)
}.

Record complex (F : Type) := Complex { re : F; im : F }.
Arguments Complex {F} _ _.
Arguments re {F} _.
Arguments im {F} _.

Record vec3 (F : Type) := Vec3 { vx : F; vy : F; vz : F }.
Arguments Vec3 {F} _ _ _.
Arguments vx {F} _.
Arguments vy {F} _.
Arguments vz {F} _.

Record quat (F : Type) := Quat { qs : F; qv : vec3 F }.
Arguments Quat {F} _ _.
Arguments qs {F} _.
Arguments qv {F} _.

Record rotmat3 (F : Type) := Rotmat3 { row0 : vec3 F; row1 : vec3 F; row2 : vec3 F }.
Arguments Rotmat3 {F} _ _ _.
Arguments row0 {F} _.
Arguments row1 {F} _.
Arguments row2 {F} _.

(** Modelled from the spec: [operator-] and [dot] on [vec3<float>] are
    declared in VectorMath.h, which is not among the sources; they are the
    componentwise difference and the Euclidean inner product behind the
    spec's "displacement" and "|rvec|^2". *)
Definition vsub `{FloatOps F} (a b : vec3 F) : vec3 F :=
  Vec3 (fsub (vx a) (vx b)) (fsub (vy a) (vy b)) (fsub (vz a) (vz b)).

Definition dot `{FloatOps F} (a b : vec3 F) : F :=
  fadd (fadd (fmul (vx a) (vx b)) (fmul (vy a) (vy b))) (fmul (vz a) (vz b)).

(** A value-initialised [std::complex<float>]. *)
Definition complex_zero `{FloatOps F} : complex F := Complex f0 f0.

(** ** RotationalAutocorrelation *)

Module RotationalAutocorrelation.

(** The members of the class.  A [shared_ptr] is [None] when null and
    otherwise holds the cells of the array it owns. *)
Record t (F : Type) := Build {
  m_l : N;
  m_N : N;
  m_Ft : F;
  m_RA_array : option (list (complex F));
  m_factorials : option (list N);
}.
Arguments Build {F} _ _ _ _ _.
Arguments m_l {F} _.
Arguments m_N {F} _.
Arguments m_Ft {F} _.
Arguments m_RA_array {F} _.
Arguments m_factorials {F} _.

(** [a[i] = v] on an array of [unsigned int]; [None] when the cell lies
    outside the allocation. *)
Definition store (a : list N) (i : N) (v : N) : option (list N) :=
  if decide (N.to_nat i < length a)%nat then Some (<[N.to_nat i := v]> a) else None.

(** The loop [for (i = 1; i <= m_l; i++) a[i] = i * a[i-1]], with [n] the
    number of iterations left.  The product is an [unsigned int]. *)
Fixpoint fill_factorials (n : nat) (i : N) (a : list N) : option (list N) :=
  match n with
  | O => Some a
  | S n' =>
      prev ← a !! N.to_nat (i - 1);
      a' ← store a i (wrap32 (i * prev));
      fill_factorials n' (i + 1) a'
  end.

(** [RotationalAutocorrelation(unsigned int l)]: [new unsigned int[m_l+1]],
    [memset] to zero, [a[0] = 1], then the loop.  [m_l + 1] is an
    [unsigned int]; the result is [None] when a cell outside the
    allocation is touched. *)
Definition construct `{FloatOps F} (l : N) : option (t F) :=
  let a := replicate (N.to_nat (wrap32 (l + 1))) 0 in
  a0 ← store a 0 1;
  cache ← fill_factorials (N.to_nat l) 1 a0;
  Some (Build l 0 f0 None (Some cache)).

(** [RotationalAutocorrelation() {}]: the three scalar members are left
    with whatever the storage held, the two [shared_ptr] members are
    default-constructed, that is null.  Every instance of this shape is a
    possible result. *)
Inductive default_constructed {F : Type} : t F -> Prop :=
| default_constructed_intro (l n : N) (ft : F) :
    l < UINT_BOUND -> n < UINT_BOUND ->
    default_constructed (Build l n ft None None).

Definition getL {F} (ra : t F) : N := m_l ra.
Definition getN {F} (ra : t F) : N := m_N ra.
Definition getRAArray {F} (ra : t F) : option (list (complex F)) := m_RA_array ra.
Definition getRotationalAutocorrelation {F} (ra : t F) : F := m_Ft ra.

(** Modelled from the spec: the body of [compute] is in
    RotationalAutocorrelation.cc, which is not among the sources.  The spec
    gives its effect on the members: it "overwrites stored N, per-particle
    array, and scalar result".  [per_particle] stands for the harmonic
    inner product of one particle and [reduce] for the normalised average. *)
Definition compute {F}
    (per_particle : t F -> quat F -> quat F -> complex F)
    (reduce : t F -> list (complex F) -> N -> F)
    (ra : t F) (ref_ors ors : list (quat F)) (n : N) : t F :=
  let values := zip_with (per_particle ra) ref_ors ors in
  Build (m_l ra) n (reduce ra values n) (Some values) (m_factorials ra).

(** The operations a client can apply to an instance after construction:
    the four accessors, which return a member and leave the instance as it
    is, and [compute]. *)
Inductive step {F} (per_particle : t F -> quat F -> quat F -> complex F)
    (reduce : t F -> list (complex F) -> N -> F) : t F -> t F -> Prop :=
| step_accessor ra : step per_particle reduce ra ra
| step_compute ra ref_ors ors n :
    step per_particle reduce ra (compute per_particle reduce ra ref_ors ors n).

(** The mathematical factorial, as an exact integer. *)
Fixpoint factorial (n : nat) : N :=
  match n with
  | O => 1
  | S k => N.of_nat (S k) * factorial k
  end.

(** The invariant of the factorial cache as the spec words it: the cache
    holds exactly the factorials 0! through l!. *)
Definition cache_exact {F} (ra : t F) : Prop :=
  exists cache, m_factorials ra = Some cache
    /\ length cache = S (N.to_nat (m_l ra))
    /\ forall i, (i <= N.to_nat (m_l ra))%nat -> cache !! i = Some (factorial i).

(** What the 32-bit products of the constructor give. *)
Definition cache_mod32 {F} (ra : t F) : Prop :=
  exists cache, m_factorials ra = Some cache
    /\ length cache = S (N.to_nat (m_l ra))
    /\ forall i, (i <= N.to_nat (m_l ra))%nat -> cache !! i = Some (wrap32 (factorial i)).

End RotationalAutocorrelation.

(** ** LocalDescriptors *)

Module LocalDescriptors.

(** [enum LocalDescriptorOrientation].  The parameter of [compute] can hold
    any value of the underlying type, so a mode is a number. *)
Definition LocalNeighborhood : N := 0.
Definition Global : N := 1.
Definition ParticleLocal : N := 2.

(** [box::Box], of which only [wrap] is used. *)
Record Box (F : Type) := { wrap : vec3 F -> vec3 F }.
Arguments wrap {F} _ _.

(** [freud::locality::NeighborList] as [compute] sees it: the bonds
    [(neighbor_list[2b], neighbor_list[2b+1])] and the two queries, whose
    bodies are outside the sources and are left unconstrained.
    [validate n m] is [true] when the call returns and [false] when it
    raises. *)
Record NeighborList := {
  getNeighbors : list (N * N);
  find_first_index : N -> N;
  validate : N -> N -> bool;
}.

Definition getNumBonds (nl : NeighborList) : N := N.of_nat (length (getNeighbors nl)).

(** A [float[9]] addressed through [Index2D a_i(3)]: the cell [a_i(ii, jj)]
    is keyed by [(ii, jj)], [Index2D] (Index1D.h, outside the sources)
    being taken to send distinct pairs to distinct cells.  A key that is
    absent is a cell that was never written. *)
Definition tensor (F : Type) : Type := gmap (N * N) F.

(** The numeric collaborators. *)
Class External (F : Type) := {
  (* fsph::sphCount *)
  sphCount : N -> N;
  (* fsph::PointSPHEvaluator<float>(lmax).compute(phi, theta) followed by
     the range [begin(negative_m), end()) *)
  sph_eval : N -> F -> F -> bool -> list (complex F);
  (* freud::util::diagonalize33SymmetricMatrix: eigenvalues[k] and
     eigenvectors[a_i(r, c)] *)
  diagonalize33SymmetricMatrix : tensor F -> (N -> F) * (N -> N -> F);
  (* conj(quat<float>) and rotmat3<float>(quat<float>) *)
  conj : quat F -> quat F;
  rotmat3_of_quat : quat F -> rotmat3 F;
}.

(** The members of the class.  [allocations] is not a member: it counts the
    evaluations of the [new complex<float>[...]] expression, so that a
    reallocation can be observed. *)
Record t (F : Type) := Build {
  m_lmax : N;
  m_negative_m : bool;
  m_Nref : N;
  m_nSphs : N;
  m_sphArray : option (list (complex F));
  allocations : nat;
}.
Arguments Build {F} _ _ _ _ _ _.
Arguments m_lmax {F} _.
Arguments m_negative_m {F} _.
Arguments m_Nref {F} _.
Arguments m_nSphs {F} _.
Arguments m_sphArray {F} _.
Arguments allocations {F} _.

(** The arguments of one call of [compute].  [r_ref] and [r] are raw
    pointers, read as index maps; [q_ref] may be null. *)
Record call (F : Type) := Call {
  box : Box F;
  nlist : NeighborList;
  nNeigh : N;
  r_ref : N -> vec3 F;
  Nref : N;
  r : N -> vec3 F;
  Np : N;
  q_ref : option (N -> quat F);
  orientation : N;
}.
Arguments Call {F} _ _ _ _ _ _ _ _ _.
Arguments box {F} _.
Arguments nlist {F} _.
Arguments nNeigh {F} _.
Arguments r_ref {F} _.
Arguments Nref {F} _.
Arguments r {F} _.
Arguments Np {F} _.
Arguments q_ref {F} _.
Arguments orientation {F} _.

(** The same call with another array of reference orientations. *)
Definition set_q_ref {F} (c : call F) (q : option (N -> quat F)) : call F :=
  Call (box c) (nlist c) (nNeigh c) (r_ref c) (Nref c) (r c) (Np c) q (orientation c).

Inductive failure :=
| InvalidArgument     (* raised by NeighborList::validate *)
| UnsupportedMode     (* "Uncaught orientation mode in LocalDescriptors::compute" *)
| Undefined.          (* a read through a null pointer, a write past the buffer *)

Inductive outcome := Done | Failed (e : failure).

Section Engine.
Context {F : Type} `{FloatOps F} `{External F}.

(** [LocalDescriptors(lmax, negative_m)] *)
Definition construct (lmax : N) (negative_m : bool) : t F :=
  Build lmax negative_m 0 0 None 0.

Definition getNSphs (ld : t F) : N := m_nSphs ld.
Definition getLMax (ld : t F) : N := m_lmax ld.
Definition getNP (ld : t F) : N := m_Nref ld.
Definition getSph (ld : t F) : option (list (complex F)) := m_sphArray ld.

Definition getSphWidth (ld : t F) : N :=
  wrap32 (sphCount (m_lmax ld)
          + (if (0 <? m_lmax ld) && m_negative_m ld
             then sphCount (m_lmax ld - 1) else 0)).

(** The number of cells a buffer owns. *)
Definition buffer_size (buf : option (list (complex F))) : N :=
  match buf with
  | Some cells => N.of_nat (length cells)
  | None => 0
  end.

Definition capacity (ld : t F) : N := buffer_size (m_sphArray ld).

(** *** Frame construction *)

(** The two nested loops that clear [inertiaTensor]. *)
Definition zero_tensor : tensor F :=
  foldl (fun T ii => foldl (fun T jj => <[(ii, jj) := f0]> T) T [0; 1; 2]) ∅ [0; 1; 2].

(** [inertiaTensor[k] += x] and [inertiaTensor[k] -= x] *)
Definition tensor_add (T : tensor F) (k : N * N) (x : F) : tensor F :=
  alter (fun v => fadd v x) k T.
Definition tensor_sub (T : tensor F) (k : N * N) (x : F) : tensor F :=
  alter (fun v => fsub v x) k T.

(** The body of the accumulation loop for one wrapped displacement. *)
Definition accumulate_bond (T : tensor F) (rvec : vec3 F) : tensor F :=
  let rsq := dot rvec rvec in
  let T := foldl (fun T ii => tensor_add T (ii, ii) rsq) T [0; 1; 2] in
  let T := tensor_sub T (0, 0) (fmul (vx rvec) (vx rvec)) in
  let T := tensor_sub T (0, 1) (fmul (vx rvec) (vy rvec)) in
  let T := tensor_sub T (0, 2) (fmul (vx rvec) (vz rvec)) in
  let T := tensor_sub T (1, 0) (fmul (vx rvec) (vy rvec)) in
  let T := tensor_sub T (1, 1) (fmul (vy rvec) (vy rvec)) in
  let T := tensor_sub T (1, 2) (fmul (vy rvec) (vz rvec)) in
  let T := tensor_sub T (2, 0) (fmul (vx rvec) (vz rvec)) in
  let T := tensor_sub T (2, 1) (fmul (vy rvec) (vz rvec)) in
  tensor_sub T (2, 2) (fmul (vz rvec) (vz rvec)).

(** [for (bond_copy = bond; bond_copy < getNumBonds() &&
    neighbor_list[2*bond_copy] == i && bond_copy < bond + nNeigh;
    ++bond_copy)], with [rest] the bonds from [bond_copy] on and [limit]
    the value of [bond + nNeigh]. *)
Fixpoint inertia_loop (c : call F) (i : N) (r_i : vec3 F) (limit : N)
    (rest : list (N * N)) (bond_copy : N) (T : tensor F) : tensor F :=
  match rest with
  | [] => T
  | (ref, j) :: rest' =>
      if (ref =? i) && (bond_copy <? limit) then
        let rvec := wrap (box c) (vsub (r c j) r_i) in
        inertia_loop c i r_i limit rest' (bond_copy + 1) (accumulate_bond T rvec)
      else T
  end.

(** The three vectors read from the solver's output. *)
Definition frame_of_eigenvectors (eigenvectors : N -> N -> F)
    : vec3 F * vec3 F * vec3 F :=
  (Vec3 (eigenvectors 0 0) (eigenvectors 1 0) (eigenvectors 2 0),
   Vec3 (eigenvectors 0 1) (eigenvectors 1 1) (eigenvectors 2 1),
   Vec3 (eigenvectors 0 2) (eigenvectors 1 2) (eigenvectors 2 2)).

Definition neighborhood_tensor (c : call F) (i bond : N) (r_i : vec3 F) : tensor F :=
  inertia_loop c i r_i (bond + nNeigh c)
    (drop (N.to_nat bond) (getNeighbors (nlist c))) bond zero_tensor.

(** The [if]/[else if] chain on [orientation]. *)
Definition frame (c : call F) (i bond : N) (r_i : vec3 F)
    : failure + vec3 F * vec3 F * vec3 F :=
  if orientation c =? LocalNeighborhood then
    inr (frame_of_eigenvectors
           (snd (diagonalize33SymmetricMatrix (neighborhood_tensor c i bond r_i))))
  else if orientation c =? ParticleLocal then
    match q_ref c with
    | Some q =>
        let rotmat := rotmat3_of_quat (conj (q i)) in
        inr (row0 rotmat, row1 rotmat, row2 rotmat)
    | None => inl Undefined
    end
  else if orientation c =? Global then
    inr (Vec3 f1 f0 f0, Vec3 f0 f1 f0, Vec3 f0 f0 f1)
  else inl UnsupportedMode.

(** *** The bond loop *)

(** The angles handed to the evaluator for the wrapped displacement
    [rij], as [(theta, phi)]. *)
Definition bond_angles (rot : vec3 F * vec3 F * vec3 F) (rij : vec3 F) : F * F :=
  let '(rotation_0, rotation_1, rotation_2) := rot in
  let rsq := dot rij rij in
  let bond_ij := Vec3 (dot rotation_0 rij) (dot rotation_1 rij) (dot rotation_2 rij) in
  let magR := fsqrt rsq in
  let theta := fatan2 (vy bond_ij) (vx bond_ij) in
  let theta := if flt theta f0 then fadd_2pi theta else theta in
  let phi := facos (fdiv (vz bond_ij) magR) in
  let phi := if fisnan phi then (if flt f0 (vz bond_ij) then f0 else f_pi) else phi in
  (theta, phi).

(** [std::copy(first, last, &sph_array[off])]: [None] when a cell outside
    the buffer would be written. *)
Definition copy_to (buf : option (list (complex F))) (off : N)
    (vals : list (complex F)) : option (option (list (complex F))) :=
  match vals with
  | [] => Some buf
  | _ :: _ =>
      match buf with
      | Some cells =>
          if decide (N.to_nat off + length vals <= length cells)%nat
          then Some (Some (list_inserts (N.to_nat off) vals cells))
          else None
      | None => None
      end
  end.

(** [for (count = 0; bond < getNumBonds() && neighbor_list[2*bond] == i
    && count < nNeigh; ++bond, ++count)], with [rest] the bonds from
    [bond] on. *)
Fixpoint bond_loop (ld : t F) (c : call F) (i : N) (r_i : vec3 F)
    (rot : vec3 F * vec3 F * vec3 F) (rest : list (N * N)) (bond count : N)
    (buf : option (list (complex F))) : outcome * option (list (complex F)) :=
  match rest with
  | [] => (Done, buf)
  | (ref, j) :: rest' =>
      if (ref =? i) && (count <? nNeigh c) then
        let sphCount := wrap32 (bond * getSphWidth ld) in
        let rij := wrap (box c) (vsub (r c j) r_i) in
        let '(theta, phi) := bond_angles rot rij in
        match copy_to buf sphCount (sph_eval (m_lmax ld) phi theta (m_negative_m ld)) with
        | Some buf' => bond_loop ld c i r_i rot rest' (bond + 1) (count + 1) buf'
        | None => (Failed Undefined, buf)
        end
      else (Done, buf)
  end.

(** The body of the loop over reference particles. *)
Definition particle (ld : t F) (c : call F) (i : N)
    (buf : option (list (complex F))) : outcome * option (list (complex F)) :=
  let bond := find_first_index (nlist c) i in
  let r_i := r_ref c i in
  match frame c i bond r_i with
  | inl e => (Failed e, buf)
  | inr rot =>
      bond_loop ld c i r_i rot (drop (N.to_nat bond) (getNeighbors (nlist c))) bond 0 buf
  end.

(** [parallel_for(blocked_range<size_t>(0, Nref), ...)] in index order,
    [n] being the number of particles left; an exception leaves the
    loop. *)
Fixpoint particle_loop (ld : t F) (c : call F) (n : nat) (i : N)
    (buf : option (list (complex F))) : outcome * option (list (complex F)) :=
  match n with
  | O => (Done, buf)
  | S n' =>
      match particle ld c i buf with
      | (Done, buf') => particle_loop ld c n' (i + 1) buf'
      | (Failed e, buf') => (Failed e, buf')
      end
  end.

(** The reallocation at the head of [compute]. *)
Definition reallocate (ld : t F) (numBonds : N) : t F :=
  if m_nSphs ld <? numBonds then
    Build (m_lmax ld) (m_negative_m ld) (m_Nref ld) (m_nSphs ld)
          (Some (replicate (N.to_nat (numBonds * getSphWidth ld)) complex_zero))
          (S (allocations ld))
  else ld.

(** [LocalDescriptors::compute]: the outcome and the engine afterwards. *)
Definition compute (ld : t F) (c : call F) : outcome * t F :=
  if validate (nlist c) (Nref c) (Np c) then
    let ld1 := reallocate ld (getNumBonds (nlist c)) in
    match particle_loop ld1 c (N.to_nat (Nref c)) 0 (m_sphArray ld1) with
    | (Done, buf) =>
        (Done, Build (m_lmax ld1) (m_negative_m ld1) (Nref c)
                     (wrap32 (getNumBonds (nlist c))) buf (allocations ld1))
    | (Failed e, buf) =>
        (Failed e, Build (m_lmax ld1) (m_negative_m ld1) (m_Nref ld1)
                         (m_nSphs ld1) buf (allocations ld1))
    end
  else (Failed InvalidArgument, ld).

End Engine.

End LocalDescriptors.

(** ** The properties the engines are checked against *)

Module Spec.

(** *** Width of one descriptor *)

(** The index pairs [(l, m)] with [0 <= m <= l] for [l = 0..lmax]. *)
Definition indices_nonneg (lmax : nat) : list (nat * Z) :=
  l ← seq 0 (S lmax); (fun m => (l, Z.of_nat m)) <$> seq 0 (S l).

(** The index pairs [(l, m)] with [-l <= m < 0] for [l = 0..lmax]. *)
Definition indices_neg (lmax : nat) : list (nat * Z) :=
  l ← seq 0 (S lmax); (fun m => (l, (- Z.of_nat m)%Z)) <$> seq 1 l.

(** The closed forms of the claim: [(lmax+1)(lmax+2)/2] and, when negative
    orders are asked for and [lmax > 0], [lmax(lmax+1)/2] more. *)
Definition width_formula (lmax : N) (negative_m : bool) : N :=
  (lmax + 1) * (lmax + 2) / 2
  + (if (0 <? lmax) && negative_m then lmax * (lmax + 1) / 2 else 0).

(** *** Spherical coordinates *)

Section Angles.
Context {F : Type} `{FloatOps F}.


(** *** The inertia-like tensor *)

Definition component (v : vec3 F) (ii : N) : F :=
  match ii with
  | 0 => vx v
  | 1 => vy v
  | _ => vz v
  end.

(** Entry [(ii, jj)] after the displacements [rvecs] have been accumulated
    in order: each one adds [|rvec|^2] on the diagonal and then takes away
    the entry of the outer product of [rvec] with itself. *)
Definition inertia_entry (ii jj : N) (rvecs : list (vec3 F)) : F :=
  foldl (fun acc rvec =>
           fsub (if decide (ii = jj) then fadd acc (dot rvec rvec) else acc)
                (fmul (component rvec ii) (component rvec jj)))
        f0 rvecs.

(** The product that the loop body takes from cell [(ii, jj)], with its
    factors in the order of the source. *)
Definition subtracted (rvec : vec3 F) (ii jj : N) : F :=
  match ii, jj with
  | 0, 0 => fmul (vx rvec) (vx rvec)
  | 0, 1 => fmul (vx rvec) (vy rvec)
  | 0, 2 => fmul (vx rvec) (vz rvec)
  | 1, 0 => fmul (vx rvec) (vy rvec)
  | 1, 1 => fmul (vy rvec) (vy rvec)
  | 1, 2 => fmul (vy rvec) (vz rvec)
  | 2, 0 => fmul (vx rvec) (vz rvec)
  | 2, 1 => fmul (vy rvec) (vz rvec)
  | _, _ => fmul (vz rvec) (vz rvec)
  end.

(** The 3x3 array whose cell [(ii, jj)] holds [e ii jj]. *)
Definition tensor_of (e : N -> N -> F) : LocalDescriptors.tensor F :=
  list_to_map ((fun k : N * N => (k, e k.1 k.2)) <$>
    [(0, 0); (0, 1); (0, 2); (1, 0); (1, 1); (1, 2); (2, 0); (2, 1); (2, 2)]).

Definition inertia_tensor (rvecs : list (vec3 F)) : LocalDescriptors.tensor F :=
  tensor_of (fun ii jj => inertia_entry ii jj rvecs).

End Angles.

(** The longest prefix of [bonds] whose reference index is [i]. *)
Fixpoint bonds_of (i : N) (bonds : list (N * N)) : list (N * N) :=
  match bonds with
  | [] => []
  | (ref, j) :: rest => if ref =? i then (ref, j) :: bonds_of i rest else []
  end.

(** The bonds of particle [i] that enter its frame: at most [nNeigh] of
    them, starting at offset [bond]. *)
Definition frame_bonds (nl : LocalDescriptors.NeighborList) (nNeigh i bond : N)
    : list (N * N) :=
  take (N.to_nat nNeigh)
       (bonds_of i (drop (N.to_nat bond) (LocalDescriptors.getNeighbors nl))).

(** Their box-wrapped displacements from [r_i]. *)
Definition frame_displacements {F} `{FloatOps F} (c : LocalDescriptors.call F)
    (i bond : N) (r_i : vec3 F) : list (vec3 F) :=
  (fun b : N * N =>
     LocalDescriptors.wrap (LocalDescriptors.box c) (vsub (LocalDescriptors.r c b.2) r_i))
  <$> frame_bonds (LocalDescriptors.nlist c) (LocalDescriptors.nNeigh c) i bond.

End Spec.

(** ** An instance over the integers

    Exact integer arithmetic in place of [float] and simple stand-ins for
    the collaborators, to run the engines on concrete inputs. *)

Module IntegerModel.

#[global] Instance Z_FloatOps : FloatOps Z := {|
  f0 := 0%Z; f1 := 1%Z; f_pi := 3%Z;
  fadd := Z.add; fsub := Z.sub; fmul := Z.mul; fdiv := Z.div;
  fsqrt := Z.sqrt;
  facos := fun _ => 0%Z;
  fatan2 := fun y x => (y + x)%Z;
  fadd_2pi := fun x => (x + 6)%Z;
  flt := Z.ltb;
  fisnan := fun _ => false;
|}.

(** Modelled from the spec: [fsph::sphCount] is declared in
    fsph/src/spherical_harmonics.hpp, which is not among the sources; the
    spec gives it as "the closed-form count of (l,m) pairs with m>=0 for
    l=0..lmax".  The result is an [unsigned int]. *)
Definition fsph_sphCount (lmax : N) : N := wrap32 ((lmax + 1) * (lmax + 2) / 2).

(** An evaluator that yields the expected number of coefficients, each
    holding the two angles it was given. *)
Definition stub_sph_eval (lmax : N) (phi theta : Z) (negative_m : bool) : list (complex Z) :=
  replicate (N.to_nat (fsph_sphCount lmax
                       + (if (0 <? lmax) && negative_m then fsph_sphCount (lmax - 1) else 0)))
            (Complex phi theta).

#[global] Instance Z_External : LocalDescriptors.External Z := {|
  LocalDescriptors.sphCount := fsph_sphCount;
  LocalDescriptors.sph_eval := stub_sph_eval;
  LocalDescriptors.diagonalize33SymmetricMatrix :=
    fun _ => (fun _ => 0%Z, fun r c => if r =? c then 1%Z else 0%Z);
  LocalDescriptors.conj := fun q => q;
  LocalDescriptors.rotmat3_of_quat :=
    fun _ => Rotmat3 (Vec3 1%Z 0%Z 0%Z) (Vec3 0%Z 1%Z 0%Z) (Vec3 0%Z 0%Z 1%Z);
|}.

(** Modelled from the spec: the queries of [NeighborList] (NeighborList.h is
    not among the sources).  [validate] "fails if bond endpoints are out of
    range"; [find_first_index] "returns the first bond offset for reference
    index i, or the total bond count if i has none". *)
Fixpoint first_index (i : N) (bonds : list (N * N)) : N :=
  match bonds with
  | [] => 0
  | (ref, _) :: rest => if ref =? i then 0 else 1 + first_index i rest
  end.

Definition neighbor_list (bonds : list (N * N)) : LocalDescriptors.NeighborList := {|
  LocalDescriptors.getNeighbors := bonds;
  LocalDescriptors.find_first_index := fun i => first_index i bonds;
  LocalDescriptors.validate := fun nref np =>
    forallb (fun b : N * N => (b.1 <? nref) && (b.2 <? np)) bonds;
|}.

(** Every particle at the origin but particle 1, in an unbounded box. *)
Definition positions (k : N) : vec3 Z :=
  if k =? 1 then Vec3 3%Z 0%Z 4%Z else Vec3 0%Z 0%Z 0%Z.

Definition open_box : LocalDescriptors.Box Z := {| LocalDescriptors.wrap := fun v => v |}.

(** One reference particle (index 0) bonded [n] times to particle 1. *)
Definition star (n : nat) : list (N * N) := replicate n (0, 1).

Definition call_on (bonds : list (N * N)) (nref : N) (q : option (N -> quat Z)) (mode : N)
    : LocalDescriptors.call Z :=
  LocalDescriptors.Call open_box (neighbor_list bonds) 12 positions nref positions 2 q mode.

(** The engine after a call, whatever its outcome. *)
Definition after (ld : LocalDescriptors.t Z) (c : LocalDescriptors.call Z) : LocalDescriptors.t Z :=
  snd (LocalDescriptors.compute ld c).

End IntegerModel.

(** ** What one pass of [compute] reads and writes *)

Module Pass.
Import LocalDescriptors.

Section Pass.
Context {F : Type} `{FloatOps F} `{External F}.

(** [sph_array[p]], when the buffer has such a cell. *)
Definition cell (buf : option (list (complex F))) (p : nat) : option (complex F) :=
  cells ← buf; cells !! p.

(** The calls in which every particle gets a frame: one of the three modes,
    with an array of orientations at hand when ParticleLocal reads it. *)
Definition frame_defined (c : call F) : Prop :=
  orientation c = LocalNeighborhood \/ orientation c = Global
  \/ (orientation c = ParticleLocal /\ is_Some (q_ref c)).

(** The coefficients the evaluator yields for neighbour [j] of a particle at
    [r_i] with frame [rot]. *)
Definition coefficients (ld : t F) (c : call F) (rot : vec3 F * vec3 F * vec3 F)
    (r_i : vec3 F) (j : N) : list (complex F) :=
  let '(theta, phi) := bond_angles rot (wrap (box c) (vsub (r c j) r_i)) in
  sph_eval (m_lmax ld) phi theta (m_negative_m ld).

(** The bonds of particle [i] that a pass visits, the first of them at
    offset [find_first_index i]. *)
Definition visited (c : call F) (i : N) : list (N * N) :=
  Spec.frame_bonds (nlist c) (nNeigh c) i (find_first_index (nlist c) i).

(** Cell [p] lies in the slot of a visited bond, slots being [W] cells wide. *)
Definition written (c : call F) (W p : nat) : Prop :=
  exists i, i < Nref c
    /\ (N.to_nat (find_first_index (nlist c) i) * W <= p
        < (N.to_nat (find_first_index (nlist c) i) + length (visited c i)) * W)%nat.

(** The buffer holds a slot for each bond of the stored bond count. *)
Definition buffer_fits (ld : t F) : Prop :=
  m_nSphs ld * getSphWidth ld <= capacity ld.

(** The engines a client can get from [LocalDescriptors(lmax, negative_m)]
    by calls of [compute], failed ones included. *)
Inductive reachable (lmax : N) (negative_m : bool) : t F -> Prop :=
| reachable_construct : reachable lmax negative_m (construct lmax negative_m)
| reachable_compute ld c :
    reachable lmax negative_m ld -> reachable lmax negative_m (compute ld c).2.

(** The same call with other memory behind the three array arguments. *)
Definition with_arrays (c : call F) (r_ref' r' : N -> vec3 F)
    (q_ref' : option (N -> quat F)) : call F :=
  Call (box c) (nlist c) (nNeigh c) r_ref' (Nref c) r' (Np c) q_ref' (orientation c).

(** Two arrays of orientations that agree below [n], or are both null. *)
Definition same_orientations (n : N) (q q' : option (N -> quat F)) : Prop :=
  match q, q' with
  | Some a, Some a' => forall i, i < n -> a' i = a i
  | None, None => True
  | _, _ => False
  end.

(** *** The schedule of [parallel_for]

    [parallel_for] cuts [0, Nref) into blocks and lets its workers run the
    loop body on them in an order of the scheduler's choosing.  An iteration
    reads no cell of the buffer, so a run is given by the order in which the
    iterations take effect. *)

(** The loop body on the particles of [order], one after the other; an
    exception leaves the loop. *)
Fixpoint particle_pass (ld : t F) (c : call F) (order : list N)
    (buf : option (list (complex F))) : outcome * option (list (complex F)) :=
  match order with
  | [] => (Done, buf)
  | i :: order' =>
      match particle ld c i buf with
      | (Done, buf') => particle_pass ld c order' buf'
      | (Failed e, buf') => (Failed e, buf')
      end
  end.

(** [compute] with its iterations in the order [order]. *)
Definition compute_scheduled (ld : t F) (c : call F) (order : list N) : outcome * t F :=
  if validate (nlist c) (Nref c) (Np c) then
    let ld1 := reallocate ld (getNumBonds (nlist c)) in
    match particle_pass ld1 c order (m_sphArray ld1) with
    | (Done, buf) =>
        (Done, Build (m_lmax ld1) (m_negative_m ld1) (Nref c)
                     (wrap32 (getNumBonds (nlist c))) buf (allocations ld1))
    | (Failed e, buf) =>
        (Failed e, Build (m_lmax ld1) (m_negative_m ld1) (m_Nref ld1)
                         (m_nSphs ld1) buf (allocations ld1))
    end
  else (Failed InvalidArgument, ld).

(** The particles [i0, i0 + 1, ...], [n] of them. *)
Definition index_order (i0 : N) (n : nat) : list N :=
  N.of_nat <$> seq (N.to_nat i0) n.

(** Whether the buffer is null and, if not, how many cells it owns. *)
Definition shape (buf : option (list (complex F))) : option nat := length <$> buf.

End Pass.
End Pass.

(** ** An instance with a not-a-number

    Integers with one extra value, [None], that every operation propagates
    and that division by zero, the root of a negative number and [acos]
    outside [-1, 1] produce. *)

Module NanModel.

Definition lift2 (f : Z -> Z -> Z) (a b : option Z) : option Z :=
  x ← a; y ← b; Some (f x y).

#[global] Instance optZ_FloatOps : FloatOps (option Z) := {|
  f0 := Some 0%Z; f1 := Some 1%Z; f_pi := Some 3%Z;
  fadd := lift2 Z.add; fsub := lift2 Z.sub; fmul := lift2 Z.mul;
  fdiv := fun a b => x ← a; y ← b; if decide (y = 0%Z) then None else Some (x / y)%Z;
  fsqrt := fun a => x ← a; if decide (x < 0)%Z then None else Some (Z.sqrt x);
  facos := fun a => x ← a; if decide (-1 <= x <= 1)%Z then Some (1 - x)%Z else None;
  fatan2 := lift2 Z.add;
  fadd_2pi := fun a => x ← a; Some (x + 6)%Z;
  flt := fun a b =>
    match a, b with
    | Some x, Some y => bool_decide (x < y)%Z
    | _, _ => false
    end;
  fisnan := fun a => match a with None => true | Some _ => false end;
|}.

End NanModel.

(** ** An instance over IEEE 754 binary32

    [float] as the binary32 format of [SpecFloat] (24 bits of precision,
    exponents below 128), with its correctly rounded sum, difference,
    product, quotient and square root.  The two libm functions that the
    sources only call get stand-ins, see below. *)

Module Binary32.

Definition prec : Z := 24.
Definition emax : Z := 128.

Definition is_nan (x : SpecFloat.spec_float) : bool :=
  match x with
  | SpecFloat.S754_nan => true
  | _ => false
  end.

(** The sign bit of a value that is not a not-a-number. *)
Definition sign_bit (x : SpecFloat.spec_float) : bool :=
  match x with
  | SpecFloat.S754_zero s | SpecFloat.S754_infinity s | SpecFloat.S754_finite s _ _ => s
  | SpecFloat.S754_nan => false
  end.

Definition copysign (x y : SpecFloat.spec_float) : SpecFloat.spec_float :=
  if Bool.eqb (sign_bit x) (sign_bit y) then x else SpecFloat.SFopp x.

Definition zero : SpecFloat.spec_float := SpecFloat.S754_zero false.
Definition one : SpecFloat.spec_float := SpecFloat.S754_finite false 8388608 (-23).
Definition three : SpecFloat.spec_float := SpecFloat.S754_finite false 12582912 (-22).
Definition four : SpecFloat.spec_float := SpecFloat.S754_finite false 8388608 (-21).
(** 2^100 *)
Definition huge : SpecFloat.spec_float := SpecFloat.S754_finite false 8388608 77.
(** [M_PI] stored in a float (0x40490FDB), and half of it (0x3FC90FDB). *)
Definition pi32 : SpecFloat.spec_float := SpecFloat.S754_finite false 13176795 (-22).
Definition half_pi32 : SpecFloat.spec_float := SpecFloat.S754_finite false 13176795 (-23).
(** [2 * M_PI], a double (0x401921FB54442D18). *)
Definition two_pi64 : SpecFloat.spec_float :=
  SpecFloat.S754_finite false 7074237752028440 (-50).

(** The conversion of a double to float. *)
Definition to_float (x : SpecFloat.spec_float) : SpecFloat.spec_float :=
  match x with
  | SpecFloat.S754_finite s m e =>
      SpecFloat.binary_normalize prec emax (SpecFloat.cond_Zopp s (Z.pos m)) e s
  | _ => x
  end.

(** A stand-in for libm's [acos] on floats.  It is a not-a-number outside
    [-1, 1], [+0] at 1, pi at -1 and pi/2 at 0, as C fixes these values or
    correct rounding gives them; between these arguments it stays at pi/2. *)
Definition acosf (x : SpecFloat.spec_float) : SpecFloat.spec_float :=
  if is_nan x then SpecFloat.S754_nan
  else if SpecFloat.SFltb one x || SpecFloat.SFltb x (SpecFloat.SFopp one)
       then SpecFloat.S754_nan
  else if SpecFloat.SFeqb x one then zero
  else if SpecFloat.SFeqb x (SpecFloat.SFopp one) then pi32
  else half_pi32.

(** A stand-in for libm's [atan2] on floats, [atan2f y x].  On the axes it
    takes the values C fixes: for [y = +-0] it is [+-0] when [x] is [+0] or
    positive and [+-pi] when [x] is [-0] or negative, and for [x = +-0] and
    [y] not zero it is [+-pi/2]; off the axes it stays at [+-pi/2]. *)
Definition atan2f (y x : SpecFloat.spec_float) : SpecFloat.spec_float :=
  if is_nan y || is_nan x then SpecFloat.S754_nan
  else if SpecFloat.SFeqb y zero
       then (if sign_bit x then copysign pi32 y else y)
  else copysign half_pi32 y.

Definition binary32_FloatOps : FloatOps SpecFloat.spec_float := {|
  f0 := zero; f1 := one; f_pi := pi32;
  fadd := SpecFloat.SFadd prec emax;
  fsub := SpecFloat.SFsub prec emax;
  fmul := SpecFloat.SFmul prec emax;
  fdiv := SpecFloat.SFdiv prec emax;
  fsqrt := SpecFloat.SFsqrt prec emax;
  facos := acosf;
  fatan2 := atan2f;
  fadd_2pi := fun theta => to_float (SpecFloat.SFadd 53 1024 theta two_pi64);
  flt := SpecFloat.SFltb;
  fisnan := is_nan;
|}.

(** Stand-ins for the other collaborators: an evaluator that yields the
    expected number of coefficients, each holding the two angles it was
    given, and a solver that returns the identity. *)
Definition binary32_External : LocalDescriptors.External SpecFloat.spec_float := {|
  LocalDescriptors.sphCount := IntegerModel.fsph_sphCount;
  LocalDescriptors.sph_eval := fun lmax phi theta negative_m =>
    replicate (N.to_nat (IntegerModel.fsph_sphCount lmax
                         + (if (0 <? lmax) && negative_m
                            then IntegerModel.fsph_sphCount (lmax - 1) else 0)))
              (Complex phi theta);
  LocalDescriptors.diagonalize33SymmetricMatrix :=
    fun _ => (fun _ => zero, fun r c => if r =? c then one else zero);
  LocalDescriptors.conj := fun q => q;
  LocalDescriptors.rotmat3_of_quat :=
    fun _ => Rotmat3 (Vec3 one zero zero) (Vec3 zero one zero) (Vec3 zero zero one);
|}.

(** One reference particle at the origin of an unbounded box, bonded once
    to a particle at [v], in Global mode. *)
Definition one_bond (v : vec3 SpecFloat.spec_float) : LocalDescriptors.call SpecFloat.spec_float :=
  LocalDescriptors.Call
    {| LocalDescriptors.wrap := fun d => d |}
    (IntegerModel.neighbor_list [(0, 1)]) 12
    (fun _ => Vec3 zero zero zero) 1
    (fun k => if k =? 1 then v else Vec3 zero zero zero) 2
    None LocalDescriptors.Global.

End Binary32.

(** * Facts *)

(** ** Machine integers *)

Lemma wrap32_small (n : N) : n < UINT_BOUND -> wrap32 n = n.
Proof. intros Hn. unfold wrap32. by apply N.mod_small. Qed.

Lemma wrap32_lt (n : N) : wrap32 n < UINT_BOUND.
Proof. unfold wrap32. by apply N.mod_lt. Qed.

Lemma wrap32_mul_r (i x : N) : wrap32 (i * wrap32 x) = wrap32 (i * x).
Proof. unfold wrap32. by apply N.Div0.mul_mod_idemp_r. Qed.

(** ** RotationalAutocorrelation *)

Section RotationalAutocorrelationFacts.
Import RotationalAutocorrelation.
Context {F : Type} `{FloatOps F}.

Lemma factorial_succ (i : N) :
  1 <= i -> factorial (N.to_nat i) = i * factorial (N.to_nat (i - 1)).
Proof.
  intros Hi. replace (N.to_nat i) with (S (N.to_nat (i - 1))) by lia.
  cbn [factorial]. f_equal. lia.
Qed.

(** Up to 12! the factorials fit an [unsigned int]. *)
Lemma factorial_fits (i : nat) : (i <= 12)%nat -> factorial i < UINT_BOUND.
Proof.
  intros Hi. do 13 (destruct i as [|i]; [by vm_compute|]). lia.
Qed.

(** The loop fills the cells from [i] on, given that the cells below [i]
    already hold the factorials modulo 2^32. *)
Lemma fill_factorials_spec (n : nat) : forall (i : N) (a : list N),
  (N.to_nat i + n = length a)%nat -> 1 <= i ->
  (forall j, (j < N.to_nat i)%nat -> a !! j = Some (wrap32 (factorial j))) ->
  exists a', fill_factorials n i a = Some a' /\ length a' = length a
    /\ forall j, (j < length a)%nat -> a' !! j = Some (wrap32 (factorial j)).
Proof.
  induction n as [|n IH]; intros i a Hlen Hi Hpre.
  - exists a. split_and!; [done..|]. intros j Hj. apply Hpre. lia.
  - cbn [fill_factorials].
    rewrite (Hpre (N.to_nat (i - 1))) by lia. cbn.
    unfold store. rewrite decide_True by lia. cbn.
    destruct (IH (i + 1) (<[N.to_nat i := wrap32 (i * wrap32 (factorial (N.to_nat (i - 1))))]> a))
      as (a' & Hrun & Hlen' & Hcells).
    + rewrite length_insert. lia.
    + lia.
    + intros j Hj. destruct (decide (j = N.to_nat i)) as [->|Hne].
      * rewrite list_lookup_insert_eq by lia.
        by rewrite wrap32_mul_r, <- factorial_succ.
      * rewrite list_lookup_insert_ne by done. apply Hpre. lia.
    + exists a'. rewrite length_insert in Hlen', Hcells. done.
Qed.

(** The constructor succeeds for every [l] below [UINT_MAX] and fills the
    cache with the factorials modulo 2^32. *)
Lemma construct_cache (l : N) :
  l < UINT_BOUND - 1 ->
  exists cache, construct (F:=F) l = Some (Build l 0 f0 None (Some cache))
    /\ length cache = S (N.to_nat l)
    /\ forall i, (i <= N.to_nat l)%nat -> cache !! i = Some (wrap32 (factorial i)).
Proof.
  intros Hl. unfold construct.
  rewrite wrap32_small by (unfold UINT_BOUND in *; lia).
  replace (N.to_nat (l + 1)) with (S (N.to_nat l)) by lia.
  cbn [replicate]. unfold store at 1. cbn [length].
  rewrite decide_True by (cbn; lia). cbn.
  destruct (fill_factorials_spec (N.to_nat l) 1 (1 :: replicate (N.to_nat l) 0))
    as (cache & Hrun & Hlen & Hcells).
  - cbn. rewrite length_replicate. lia.
  - lia.
  - intros j Hj. assert (j = 0%nat) as -> by lia. done.
  - exists cache. change (<[N.to_nat 0:=1]> (0 :: replicate (N.to_nat l) 0))
      with (1 :: replicate (N.to_nat l) 0).
    rewrite Hrun. cbn. cbn in Hlen, Hcells.
    rewrite length_replicate in Hlen, Hcells.
    split_and!; [done..|]. intros i Hi. apply Hcells. lia.
Qed.

(** No operation of an instance writes the cache. *)
Lemma step_keeps_factorials per_particle reduce (ra ra' : t F) :
  rtc (step per_particle reduce) ra ra' -> m_factorials ra' = m_factorials ra.
Proof.
  induction 1 as [|ra ra1 ra' Hstep _ IH]; [done|].
  rewrite IH. by destruct Hstep.
Qed.

Lemma default_constructed_no_cache (ra : t F) :
  default_constructed ra -> m_factorials ra = None /\ m_RA_array ra = None.
Proof. by destruct 1. Qed.

End RotationalAutocorrelationFacts.

Section RotationalAutocorrelationClaims.
Import RotationalAutocorrelation.
Context {F : Type} `{FloatOps F}.

(** C8, amended.  For every quantum number [l] below [UINT_MAX], after
    [RotationalAutocorrelation(l)] the cache has [l + 1] cells and cell [i]
    holds [i!] reduced modulo 2^32, which is the exact factorial for
    [i <= 12]; no later operation of the instance changes the cache. *)
Theorem factorial_cache_after_construct (l : N)
    (per_particle : t F -> quat F -> quat F -> complex F)
    (reduce : t F -> list (complex F) -> N -> F) :
  l < UINT_BOUND - 1 ->
  exists (ra : t F) (cache : list N),
    construct l = Some ra /\ getL ra = l /\ m_factorials ra = Some cache
    /\ length cache = S (N.to_nat l)
    /\ (forall i, (i <= N.to_nat l)%nat -> cache !! i = Some (wrap32 (factorial i)))
    /\ (forall i, (i <= N.to_nat l)%nat -> (i <= 12)%nat -> cache !! i = Some (factorial i))
    /\ (forall ra', rtc (step per_particle reduce) ra ra' -> m_factorials ra' = Some cache).
Proof.
  intros Hl. destruct (construct_cache l Hl) as (cache & Hc & Hlen & Hcells).
  eexists _, cache. split_and!; [exact Hc|done..| |].
  - intros i Hi Hsmall. rewrite Hcells by done.
    by rewrite wrap32_small by by apply factorial_fits.
  - intros ra' Hsteps. by rewrite (step_keeps_factorials _ _ _ _ Hsteps).
Qed.

(** C10.  A default-constructed instance has both pointers null, so it
    carries no factorial cache, while its three scalar members, and with them
    the values of [getL], [getN] and [getRotationalAutocorrelation], can be
    anything; the cache is set up by [RotationalAutocorrelation(l)] alone. *)
Theorem default_constructor_leaves_members_unset (ra : t F) :
  default_constructed ra ->
  (m_factorials ra = None /\ getRAArray ra = None
   /\ ~ cache_exact ra /\ ~ cache_mod32 ra)
  /\ (forall (l n : N) (ft : F), l < UINT_BOUND -> n < UINT_BOUND ->
        exists ra', default_constructed ra' /\ getL ra' = l /\ getN ra' = n
                    /\ getRotationalAutocorrelation ra' = ft)
  /\ (forall l, l < UINT_BOUND - 1 ->
        exists ra', construct (F:=F) l = Some ra' /\ cache_mod32 ra').
Proof.
  intros Hra. destruct (default_constructed_no_cache ra Hra) as [Hf Ha].
  split_and!; [done..| | | |].
  - intros (cache & Hc & _). congruence.
  - intros (cache & Hc & _). congruence.
  - intros l n ft Hl Hn. exists (Build l n ft None None).
    split_and!; [by constructor|done..].
  - intros l Hl. destruct (construct_cache l Hl) as (cache & Hc & Hlen & Hcells).
    eexists. split; [exact Hc|]. by exists cache.
Qed.

End RotationalAutocorrelationClaims.

(** C8 as stated fails at [l = 13]: the cell for 13! holds 1932053504, the
    low 32 bits of 6227020800. *)
Lemma factorial_cache_wraps_at_13 :
  exists (ra : RotationalAutocorrelation.t Z) (cache : list N),
    RotationalAutocorrelation.construct 13 = Some ra
    /\ RotationalAutocorrelation.m_factorials ra = Some cache
    /\ cache !! 13%nat = Some 1932053504
    /\ RotationalAutocorrelation.factorial 13 = 6227020800
    /\ ~ RotationalAutocorrelation.cache_exact ra.
Proof.
  eexists _, _. split_and!; [by vm_compute|by vm_compute|by vm_compute|by vm_compute|].
  intros (cache & Hc & _ & Hall). specialize (Hall 13%nat).
  vm_compute in Hc. injection Hc as <-.
  vm_compute in Hall. specialize (Hall (le_n _)). discriminate.
Qed.

Lemma factorial_cache_after_construct_witness :
  13 < UINT_BOUND - 1
  /\ exists (ra : RotationalAutocorrelation.t Z) (cache : list N),
       RotationalAutocorrelation.construct 13 = Some ra
       /\ RotationalAutocorrelation.getL ra = 13
       /\ RotationalAutocorrelation.m_factorials ra = Some cache
       /\ length cache = S (N.to_nat 13)
       /\ (forall i, (i <= N.to_nat 13)%nat ->
             cache !! i = Some (wrap32 (RotationalAutocorrelation.factorial i)))
       /\ (forall i, (i <= N.to_nat 13)%nat -> (i <= 12)%nat ->
             cache !! i = Some (RotationalAutocorrelation.factorial i))
       /\ (forall ra',
             rtc (RotationalAutocorrelation.step
                    (fun _ _ _ => complex_zero) (fun _ _ _ => 0%Z)) ra ra' ->
             RotationalAutocorrelation.m_factorials ra' = Some cache).
Proof.
  split; [reflexivity|].
  apply (factorial_cache_after_construct 13
           (fun _ _ _ => complex_zero) (fun _ _ _ => 0%Z)).
  reflexivity.
Defined.

Lemma default_constructor_leaves_members_unset_witness :
  let ra := RotationalAutocorrelation.Build 7 3 0%Z None None in
  RotationalAutocorrelation.default_constructed ra
  /\ (RotationalAutocorrelation.m_factorials ra = None
      /\ RotationalAutocorrelation.getRAArray ra = None
      /\ ~ RotationalAutocorrelation.cache_exact ra
      /\ ~ RotationalAutocorrelation.cache_mod32 ra)
  /\ (forall (l n : N) (ft : Z), l < UINT_BOUND -> n < UINT_BOUND ->
        exists ra', RotationalAutocorrelation.default_constructed ra'
                    /\ RotationalAutocorrelation.getL ra' = l
                    /\ RotationalAutocorrelation.getN ra' = n
                    /\ RotationalAutocorrelation.getRotationalAutocorrelation ra' = ft)
  /\ (forall l, l < UINT_BOUND - 1 ->
        exists ra', RotationalAutocorrelation.construct (F:=Z) l = Some ra'
                    /\ RotationalAutocorrelation.cache_mod32 ra').
Proof.
  intros ra.
  assert (Hd : RotationalAutocorrelation.default_constructed ra)
    by (constructor; reflexivity).
  split; [exact Hd|].
  exact (default_constructor_leaves_members_unset ra Hd).
Defined.

(** ** LocalDescriptors: the width of one descriptor *)

Section Width.
Import LocalDescriptors.

Lemma indices_nonneg_succ (n : nat) :
  Spec.indices_nonneg (S n)
  = Spec.indices_nonneg n ++ ((fun m => (S n, Z.of_nat m)) <$> seq 0 (S (S n))).
Proof.
  unfold Spec.indices_nonneg. rewrite (seq_S (S n)) at 1. by rewrite bind_app, bind_singleton.
Qed.

Lemma indices_neg_succ (n : nat) :
  Spec.indices_neg (S n)
  = Spec.indices_neg n ++ ((fun m => (S n, (- Z.of_nat m)%Z)) <$> seq 1 (S n)).
Proof.
  unfold Spec.indices_neg. rewrite (seq_S (S n)) at 1. by rewrite bind_app, bind_singleton.
Qed.

Lemma length_indices_nonneg_double (n : nat) :
  (2 * length (Spec.indices_nonneg n) = (n + 1) * (n + 2))%nat.
Proof.
  induction n as [|n IH]; [done|].
  rewrite indices_nonneg_succ, List.length_app, length_fmap, length_seq. lia.
Qed.

Lemma length_indices_neg_double (n : nat) :
  (2 * length (Spec.indices_neg n) = n * (n + 1))%nat.
Proof.
  induction n as [|n IH]; [done|].
  rewrite indices_neg_succ, List.length_app, length_fmap, length_seq. lia.
Qed.

(** There are [(lmax+1)(lmax+2)/2] index pairs with [m >= 0] through degree
    [lmax]. *)
Lemma count_indices_nonneg (lmax : N) :
  N.of_nat (length (Spec.indices_nonneg (N.to_nat lmax))) = (lmax + 1) * (lmax + 2) / 2.
Proof.
  pose proof (length_indices_nonneg_double (N.to_nat lmax)) as Hd.
  replace ((lmax + 1) * (lmax + 2)) with (N.of_nat (length (Spec.indices_nonneg (N.to_nat lmax))) * 2) by lia.
  rewrite N.div_mul; lia.
Qed.

(** There are [lmax(lmax+1)/2] index pairs with [m < 0] through degree
    [lmax]. *)
Lemma count_indices_neg (lmax : N) :
  N.of_nat (length (Spec.indices_neg (N.to_nat lmax))) = lmax * (lmax + 1) / 2.
Proof.
  pose proof (length_indices_neg_double (N.to_nat lmax)) as Hd.
  replace (lmax * (lmax + 1)) with (N.of_nat (length (Spec.indices_neg (N.to_nat lmax))) * 2) by lia.
  rewrite N.div_mul; lia.
Qed.

Lemma getSphWidth_lt {F} `{FloatOps F} `{External F} (ld : t F) :
  getSphWidth ld < UINT_BOUND.
Proof. apply wrap32_lt. Qed.

(** C2, amended.  Whenever [fsph::sphCount d] is the number of index pairs
    with [m >= 0] through degree [d], and [(lmax + 1)^2] fits an
    [unsigned int], [getSphWidth()] is the number of pairs with [m >= 0]
    through degree [lmax] plus, exactly when [negative_m] is set and
    [lmax > 0], the number of pairs with [m < 0] through degree [lmax]
    (as many as there are pairs with [m >= 0] through degree [lmax - 1]):
    [(lmax+1)(lmax+2)/2] plus, conditionally, [lmax(lmax+1)/2]. *)
Theorem getSphWidth_counts {F} `{FloatOps F} `{External F} (ld : t F) :
  (forall d, d <= m_lmax ld ->
     sphCount d = N.of_nat (length (Spec.indices_nonneg (N.to_nat d)))) ->
  (m_lmax ld + 1) * (m_lmax ld + 1) < UINT_BOUND ->
  getSphWidth ld
  = N.of_nat (length (Spec.indices_nonneg (N.to_nat (m_lmax ld))))
    + (if (0 <? m_lmax ld) && m_negative_m ld
       then N.of_nat (length (Spec.indices_neg (N.to_nat (m_lmax ld)))) else 0)
  /\ getSphWidth ld = Spec.width_formula (m_lmax ld) (m_negative_m ld)
  /\ (0 < m_lmax ld ->
      length (Spec.indices_neg (N.to_nat (m_lmax ld)))
      = length (Spec.indices_nonneg (N.to_nat (m_lmax ld - 1)))).
Proof.
  intros Hcount Hfit. set (lmax := m_lmax ld) in *.
  assert (Hneg : 0 < lmax ->
            N.of_nat (length (Spec.indices_neg (N.to_nat lmax)))
            = N.of_nat (length (Spec.indices_nonneg (N.to_nat (lmax - 1))))).
  { intros Hpos. rewrite count_indices_neg, count_indices_nonneg.
    replace (lmax - 1 + 1) with lmax by lia.
    replace (lmax - 1 + 2) with (lmax + 1) by lia.
    by rewrite N.mul_comm. }
  assert (Hw : getSphWidth ld = Spec.width_formula lmax (m_negative_m ld)).
  { unfold getSphWidth, Spec.width_formula. fold lmax.
    rewrite (Hcount lmax) by lia. rewrite count_indices_nonneg.
    pose proof (length_indices_nonneg_double (N.to_nat lmax)) as Hd1.
    pose proof (count_indices_nonneg lmax) as Hc1.
    destruct (N.ltb_spec 0 lmax) as [Hpos|Hzero]; cbn [andb];
      [destruct (m_negative_m ld)|].
    - rewrite (Hcount (lmax - 1)) by lia. rewrite <- (Hneg Hpos).
      pose proof (length_indices_neg_double (N.to_nat lmax)) as Hd2.
      rewrite count_indices_neg. pose proof (count_indices_neg lmax) as Hc2.
      apply wrap32_small. unfold UINT_BOUND in *. nia.
    - apply wrap32_small. unfold UINT_BOUND in *. nia.
    - apply wrap32_small. unfold UINT_BOUND in *. nia. }
  split_and!.
  - rewrite Hw. unfold Spec.width_formula.
    by rewrite count_indices_nonneg, count_indices_neg.
  - done.
  - intros Hpos. apply Nat2N.inj. by apply Hneg.
Qed.

End Width.

(** C2 as stated fails at [lmax = 92681] without negative orders: there are
    4295022903 index pairs, more than any [unsigned int], whatever
    [fsph::sphCount] returns. *)
Lemma getSphWidth_overflows_at_92681 :
  Spec.width_formula 92681 false = 4295022903
  /\ ~ exists E : LocalDescriptors.External Z,
         @LocalDescriptors.getSphWidth Z E (LocalDescriptors.construct 92681 false)
         = Spec.width_formula 92681 false.
Proof.
  split; [by vm_compute|]. intros [E HE].
  pose proof (@getSphWidth_lt Z _ E (LocalDescriptors.construct 92681 false)) as Hlt.
  rewrite HE in Hlt. by vm_compute in Hlt.
Qed.

Lemma getSphWidth_counts_witness :
  let ld : LocalDescriptors.t Z := LocalDescriptors.construct 3 true in
  (forall d, d <= LocalDescriptors.m_lmax ld ->
     LocalDescriptors.sphCount d = N.of_nat (length (Spec.indices_nonneg (N.to_nat d))))
  /\ (LocalDescriptors.m_lmax ld + 1) * (LocalDescriptors.m_lmax ld + 1) < UINT_BOUND
  /\ LocalDescriptors.getSphWidth ld = 16
  /\ LocalDescriptors.getSphWidth ld
     = Spec.width_formula (LocalDescriptors.m_lmax ld) (LocalDescriptors.m_negative_m ld).
Proof.
  intros ld.
  assert (H1 : forall d, d <= LocalDescriptors.m_lmax ld ->
            LocalDescriptors.sphCount d
            = N.of_nat (length (Spec.indices_nonneg (N.to_nat d)))).
  { intros d Hd. cbn in Hd.
    assert (d = 0 \/ d = 1 \/ d = 2 \/ d = 3) as [->|[->|[->| ->]]] by lia;
      reflexivity. }
  assert (H2 : (LocalDescriptors.m_lmax ld + 1) * (LocalDescriptors.m_lmax ld + 1)
               < UINT_BOUND) by reflexivity.
  split_and!; [exact H1|exact H2|reflexivity|].
  exact (proj1 (proj2 (getSphWidth_counts ld H1 H2))).
Defined.

(** ** LocalDescriptors: one call of [compute] *)

Section ComputeFacts.
Import LocalDescriptors.
Context {F : Type} `{FloatOps F} `{External F}.

Lemma copy_to_size (buf buf' : option (list (complex F))) off vals :
  copy_to buf off vals = Some buf' -> buffer_size buf' = buffer_size buf.
Proof.
  unfold copy_to. destruct vals as [|v vals]; [by intros [= ->]|].
  destruct buf as [cells|]; [|done]. case_decide; [|done].
  intros [= <-]. unfold buffer_size. by rewrite length_insert, length_inserts.
Qed.

Lemma bond_loop_size ld c i r_i rot rest : forall bond count buf,
  buffer_size (bond_loop ld c i r_i rot rest bond count buf).2 = buffer_size buf.
Proof.
  induction rest as [|[ref j] rest IH]; intros bond count buf; cbn; [done|].
  destruct ((ref =? i) && (count <? nNeigh c)); [|done].
  destruct (bond_angles rot _) as [theta phi].
  destruct (copy_to buf _ _) as [buf'|] eqn:Hcopy; [|done].
  rewrite IH. by eapply copy_to_size.
Qed.

Lemma particle_size ld c i buf :
  buffer_size (particle ld c i buf).2 = buffer_size buf.
Proof.
  unfold particle. destruct (frame c i _ _) as [e|rot]; [done|].
  apply bond_loop_size.
Qed.

Lemma particle_loop_size ld c n : forall i buf,
  buffer_size (particle_loop ld c n i buf).2 = buffer_size buf.
Proof.
  induction n as [|n IH]; intros i buf; cbn; [done|].
  pose proof (particle_size ld c i buf) as Hp.
  destruct (particle ld c i buf) as [[|e] buf']; cbn in Hp; [|done].
  by rewrite IH.
Qed.

(** What a call leaves in the members other than the buffer: the
    configuration never changes, and [m_Nref] and [m_nSphs] change only when
    the pass ends normally. *)
Lemma compute_members ld c :
  let '(o, ld') := compute ld c in
  m_lmax ld' = m_lmax ld /\ m_negative_m ld' = m_negative_m ld
  /\ match o with
     | Done => m_Nref ld' = Nref c /\ m_nSphs ld' = wrap32 (getNumBonds (nlist c))
     | Failed _ => m_Nref ld' = m_Nref ld /\ m_nSphs ld' = m_nSphs ld
     end.
Proof.
  unfold compute. destruct (validate _ _ _); [|done].
  assert (Hre : forall k, m_lmax (reallocate ld k) = m_lmax ld
            /\ m_negative_m (reallocate ld k) = m_negative_m ld
            /\ m_Nref (reallocate ld k) = m_Nref ld
            /\ m_nSphs (reallocate ld k) = m_nSphs ld).
  { intros k. unfold reallocate. by destruct (_ <? _). }
  destruct (Hre (getNumBonds (nlist c))) as (? & ? & ? & ?).
  by destruct (particle_loop _ _ _ _ _) as [[|e] buf].
Qed.

Lemma getSphWidth_reallocate (ld : t F) k :
  getSphWidth (reallocate ld k) = getSphWidth ld.
Proof. unfold reallocate. by destruct (_ <? _). Qed.

(** The buffer and the allocation count after a call, whatever its outcome
    once the neighbour list has been accepted. *)
Lemma compute_buffer ld c o ld' :
  compute ld c = (o, ld') -> validate (nlist c) (Nref c) (Np c) = true ->
  if m_nSphs ld <? getNumBonds (nlist c)
  then allocations ld' = S (allocations ld)
       /\ capacity ld' = getNumBonds (nlist c) * getSphWidth ld
  else allocations ld' = allocations ld /\ capacity ld' = capacity ld.
Proof.
  unfold compute. intros Hc Hv. rewrite Hv in Hc.
  pose proof (particle_loop_size (reallocate ld (getNumBonds (nlist c))) c
                (N.to_nat (Nref c)) 0
                (m_sphArray (reallocate ld (getNumBonds (nlist c))))) as Hsize.
  assert (allocations ld' = allocations (reallocate ld (getNumBonds (nlist c)))
          /\ capacity ld' = capacity (reallocate ld (getNumBonds (nlist c))))
    as [-> ->].
  { destruct (particle_loop _ _ _ _ _) as [[|e] buf]; cbn in Hsize;
      injection Hc as <- <-; by unfold capacity. }
  unfold reallocate. destruct (_ <? _); [|done].
  split; [done|]. unfold capacity. cbn. rewrite length_replicate. lia.
Qed.

(** A mode outside the three known ones stops the first particle before any
    coefficient is written. *)
Lemma particle_loop_unsupported ld c n i buf :
  orientation c <> LocalNeighborhood -> orientation c <> ParticleLocal ->
  orientation c <> Global ->
  particle_loop ld c (S n) i buf = (Failed UnsupportedMode, buf).
Proof.
  intros Hn Hp Hg. cbn. unfold particle, frame.
  by rewrite !(proj2 (N.eqb_neq _ _)).
Qed.

(** *** The guard on the polar angle *)

(** When [acos] yields a not-a-number, [phi] is replaced by 0 for a positive
    [z] and by [M_PI] otherwise. *)
Lemma bond_angles_phi_replaced rot (rij : vec3 F) :
  let z := dot rot.2 rij in
  fisnan (facos (fdiv z (fsqrt (dot rij rij)))) = true ->
  (bond_angles rot rij).2 = if flt f0 z then f0 else f_pi.
Proof. destruct rot as [[r0 r1] r2]. cbn. by intros ->. Qed.

(** The value of [phi] that reaches the evaluator is never flagged by
    [std::isnan], as long as 0 and [M_PI] are not. *)
Lemma bond_angles_phi_not_nan rot (rij : vec3 F) :
  fisnan f0 = false -> fisnan f_pi = false ->
  fisnan (bond_angles rot rij).2 = false.
Proof.
  intros Hzero Hpi. destruct rot as [[r0 r1] r2]. cbn.
  destruct (fisnan (facos _)) eqn:Hnan; [|done].
  by destruct (flt f0 _).
Qed.

(** *** The array of reference orientations *)

Lemma inertia_loop_set_q_ref c q i r_i limit rest : forall bond_copy T,
  inertia_loop (set_q_ref c q) i r_i limit rest bond_copy T
  = inertia_loop c i r_i limit rest bond_copy T.
Proof.
  induction rest as [|[ref j] rest IH]; intros bond_copy T; cbn; [done|].
  by rewrite IH.
Qed.

Lemma frame_set_q_ref c q i bond r_i :
  orientation c <> ParticleLocal ->
  frame (set_q_ref c q) i bond r_i = frame c i bond r_i.
Proof.
  intros Hmode. unfold frame, neighborhood_tensor. cbn.
  rewrite inertia_loop_set_q_ref.
  by rewrite (proj2 (N.eqb_neq _ _) Hmode).
Qed.

Lemma bond_loop_set_q_ref ld c q i r_i rot rest : forall bond count buf,
  bond_loop ld (set_q_ref c q) i r_i rot rest bond count buf
  = bond_loop ld c i r_i rot rest bond count buf.
Proof.
  induction rest as [|[ref j] rest IH]; intros bond count buf; cbn; [done|].
  destruct ((ref =? i) && (count <? nNeigh c)); [|done].
  destruct (bond_angles rot _) as [theta phi].
  destruct (copy_to buf _ _) as [buf'|]; [|done]. apply IH.
Qed.

Lemma particle_loop_set_q_ref ld c q n :
  orientation c <> ParticleLocal ->
  forall i buf,
    particle_loop ld (set_q_ref c q) n i buf = particle_loop ld c n i buf.
Proof.
  intros Hmode. induction n as [|n IH]; intros i buf; cbn; [done|].
  unfold particle. rewrite frame_set_q_ref by done. cbn.
  destruct (frame c i _ _) as [e|rot]; [done|].
  rewrite bond_loop_set_q_ref.
  destruct (bond_loop _ _ _ _ _ _ _ _ _) as [[|e] buf']; [apply IH|done].
Qed.

Lemma compute_set_q_ref ld c q :
  orientation c <> ParticleLocal ->
  compute ld (set_q_ref c q) = compute ld c.
Proof.
  intros Hmode. unfold compute. cbn.
  by rewrite particle_loop_set_q_ref.
Qed.

End ComputeFacts.

Section ComputeClaims.
Import LocalDescriptors.
Context {F : Type} `{FloatOps F} `{External F}.

(** C1.  When the neighbour list does not validate against [(Nref, Np)],
    [compute] fails with InvalidArgument and the engine is left as it was:
    buffer, stored [Nref] and stored bond count.  In every call the stored
    [Nref] and bond count are written only when the whole pass has ended
    normally. *)
Theorem compute_rejects_invalid_neighbor_list (ld : t F) (c : call F) :
  validate (nlist c) (Nref c) (Np c) = false ->
  compute ld c = (Failed InvalidArgument, ld)
  /\ (forall (ld0 : t F) (c0 : call F) o ld', compute ld0 c0 = (o, ld') ->
        match o with
        | Done => getNP ld' = Nref c0
                  /\ getNSphs ld' = wrap32 (getNumBonds (nlist c0))
        | Failed _ => getNP ld' = getNP ld0 /\ getNSphs ld' = getNSphs ld0
        end).
Proof.
  intros Hv. split.
  - unfold compute. by rewrite Hv.
  - intros ld0 c0 o ld' Hc. pose proof (compute_members ld0 c0) as Hm.
    rewrite Hc in Hm. by destruct Hm as (_ & _ & Hm).
Qed.

(** C3, amended.  Whether a call reallocates is decided by the bond count of
    the previous successful call, not by the capacity.  For two successive
    successful calls with [B1] then [B2] bonds (each below 2^32): the second
    call reports exactly [B2] bonds; when [B2 <= B1] it performs no
    reallocation and leaves the capacity as it was, and when [B2 > B1] it
    allocates a buffer of exactly [B2 * sphWidth] cells.  A first call that
    reallocates leaves a capacity of exactly [B1 * sphWidth]. *)
Theorem buffer_follows_previous_call (ld ld1 ld2 : t F) (c1 c2 : call F) :
  compute ld c1 = (Done, ld1) -> compute ld1 c2 = (Done, ld2) ->
  getNumBonds (nlist c1) < UINT_BOUND -> getNumBonds (nlist c2) < UINT_BOUND ->
  (getNSphs ld < getNumBonds (nlist c1) ->
     capacity ld1 = getNumBonds (nlist c1) * getSphWidth ld)
  /\ getNSphs ld2 = getNumBonds (nlist c2)
  /\ if getNumBonds (nlist c2) <=? getNumBonds (nlist c1)
     then allocations ld2 = allocations ld1 /\ capacity ld2 = capacity ld1
     else allocations ld2 = S (allocations ld1)
          /\ capacity ld2 = getNumBonds (nlist c2) * getSphWidth ld.
Proof.
  intros Hc1 Hc2 HB1 HB2.
  assert (Hv : forall (l l' : t F) c, compute l c = (Done, l') ->
            validate (nlist c) (Nref c) (Np c) = true).
  { intros l l' c Hc. unfold compute in Hc. by destruct (validate _ _ _). }
  pose proof (compute_members ld c1) as Hm1. rewrite Hc1 in Hm1.
  destruct Hm1 as (Hl1 & Hn1 & _ & Hs1).
  pose proof (compute_members ld1 c2) as Hm2. rewrite Hc2 in Hm2.
  destruct Hm2 as (_ & _ & _ & Hs2).
  pose proof (compute_buffer ld c1 _ _ Hc1 (Hv _ _ _ Hc1)) as Hb1.
  pose proof (compute_buffer ld1 c2 _ _ Hc2 (Hv _ _ _ Hc2)) as Hb2.
  assert (Hw : getSphWidth ld1 = getSphWidth ld).
  { unfold getSphWidth. by rewrite Hl1, Hn1. }
  rewrite Hs1, wrap32_small, Hw in Hb2 by done.
  unfold getNSphs. split_and!.
  - intros Hgrow. apply N.ltb_lt in Hgrow. rewrite Hgrow in Hb1. by destruct Hb1.
  - by rewrite Hs2, wrap32_small.
  - destruct (N.leb_spec (getNumBonds (nlist c2)) (getNumBonds (nlist c1))) as [Hle|Hgt].
    + by rewrite (proj2 (N.ltb_ge _ _) Hle) in Hb2.
    + by rewrite (proj2 (N.ltb_lt _ _) Hgt) in Hb2.
Qed.

(** C4, amended.  With a neighbour list that validates and at least one
    reference particle, a mode other than LocalNeighborhood, ParticleLocal
    and Global makes [compute] fail with UnsupportedMode.  The stored [Nref]
    and bond count keep their values and no coefficient is written; the
    engine is entirely untouched when the bond count of the call does not
    exceed the stored one, and otherwise the buffer has already been replaced
    by a fresh, zeroed one. *)
Theorem compute_unsupported_mode (ld : t F) (c : call F) :
  validate (nlist c) (Nref c) (Np c) = true -> 0 < Nref c ->
  orientation c <> LocalNeighborhood -> orientation c <> ParticleLocal ->
  orientation c <> Global ->
  exists ld', compute ld c = (Failed UnsupportedMode, ld')
    /\ getNP ld' = getNP ld /\ getNSphs ld' = getNSphs ld
    /\ (getNumBonds (nlist c) <= getNSphs ld -> ld' = ld)
    /\ (getNSphs ld < getNumBonds (nlist c) ->
        getSph ld'
        = Some (replicate (N.to_nat (getNumBonds (nlist c) * getSphWidth ld)) complex_zero)
        /\ allocations ld' = S (allocations ld)).
Proof.
  intros Hv Hpos Hn Hp Hg. exists (reallocate ld (getNumBonds (nlist c))).
  split_and!.
  - unfold compute. rewrite Hv.
    replace (N.to_nat (Nref c)) with (S (N.to_nat (Nref c - 1))) by lia.
    rewrite particle_loop_unsupported by done.
    by destruct (reallocate ld _).
  - unfold reallocate. by destruct (_ <? _).
  - unfold reallocate. by destruct (_ <? _).
  - intros Hle. unfold reallocate, getNSphs in *.
    by rewrite (proj2 (N.ltb_ge _ _) Hle).
  - intros Hlt. unfold reallocate, getNSphs in *.
    by rewrite (proj2 (N.ltb_lt _ _) Hlt).
Qed.

(** C9.  Two calls that differ in the array of reference orientations alone
    give the same outcome and leave the same engine when the mode is
    LocalNeighborhood or Global; this includes a null array, so the array is
    not read in these modes. *)
Theorem q_ref_read_only_in_ParticleLocal (ld : t F) (c : call F)
    (q1 q2 : option (N -> quat F)) :
  orientation c = LocalNeighborhood \/ orientation c = Global ->
  compute ld (set_q_ref c q1) = compute ld (set_q_ref c q2).
Proof.
  intros Hmode.
  assert (orientation c <> ParticleLocal) by (by destruct Hmode as [-> | ->]).
  by rewrite !compute_set_q_ref.
Qed.

End ComputeClaims.

(** ** LocalDescriptors: the frame of LocalNeighborhood mode *)

Section InertiaFacts.
Import LocalDescriptors.
Context {F : Type} `{FloatOps F} `{External F}.

Lemma zero_tensor_entries : zero_tensor = Spec.tensor_of (fun _ _ => f0).
Proof. reflexivity. Qed.

Lemma tensor_of_ext (e e' : N -> N -> F) :
  (forall ii jj, ii < 3 -> jj < 3 -> e ii jj = e' ii jj) ->
  Spec.tensor_of e = Spec.tensor_of e'.
Proof.
  intros He. unfold Spec.tensor_of. cbn [fmap list_fmap fst snd].
  by rewrite !He.
Qed.

Lemma lookup_tensor_of (e : N -> N -> F) (ii jj : N) :
  ii < 3 -> jj < 3 -> Spec.tensor_of e !! (ii, jj) = Some (e ii jj).
Proof.
  intros Hi Hj.
  assert (ii = 0 \/ ii = 1 \/ ii = 2) as [->|[->| ->]] by lia;
    assert (jj = 0 \/ jj = 1 \/ jj = 2) as [->|[->| ->]] by lia;
    reflexivity.
Qed.

(** One pass of the loop body on the nine cells, as the source writes it. *)
Lemma accumulate_bond_cells (e : N -> N -> F) (rvec : vec3 F) :
  accumulate_bond (Spec.tensor_of e) rvec
  = Spec.tensor_of (fun ii jj =>
      fsub (if decide (ii = jj) then fadd (e ii jj) (dot rvec rvec) else e ii jj)
           (Spec.subtracted rvec ii jj)).
Proof. destruct rvec as [x y z]. vm_compute. reflexivity. Qed.

Lemma subtracted_outer (rvec : vec3 F) (ii jj : N) :
  (forall a b : F, fmul a b = fmul b a) -> ii < 3 -> jj < 3 ->
  Spec.subtracted rvec ii jj = fmul (Spec.component rvec ii) (Spec.component rvec jj).
Proof.
  intros Hcomm Hi Hj.
  assert (ii = 0 \/ ii = 1 \/ ii = 2) as [->|[->| ->]] by lia;
    assert (jj = 0 \/ jj = 1 \/ jj = 2) as [->|[->| ->]] by lia;
    cbn; done || apply Hcomm.
Qed.

Lemma foldl_accumulate_bond (rvecs : list (vec3 F)) :
  (forall a b : F, fmul a b = fmul b a) ->
  forall e : N -> N -> F,
    foldl accumulate_bond (Spec.tensor_of e) rvecs
    = Spec.tensor_of (fun ii jj =>
        foldl (fun acc rvec =>
                 fsub (if decide (ii = jj) then fadd acc (dot rvec rvec) else acc)
                      (fmul (Spec.component rvec ii) (Spec.component rvec jj)))
              (e ii jj) rvecs).
Proof.
  intros Hcomm. induction rvecs as [|rvec rvecs IH]; intros e; cbn [foldl]; [done|].
  rewrite accumulate_bond_cells, IH. apply tensor_of_ext.
  intros ii jj Hi Hj. by rewrite subtracted_outer.
Qed.

(** The accumulation loop visits the bonds of [i] from [bond_copy] on, up to
    the limit. *)
Lemma inertia_loop_foldl c i r_i limit rest : forall bond_copy T,
  inertia_loop c i r_i limit rest bond_copy T
  = foldl accumulate_bond T
      ((fun b : N * N => wrap (box c) (vsub (r c b.2) r_i))
       <$> take (N.to_nat (limit - bond_copy)) (Spec.bonds_of i rest)).
Proof.
  induction rest as [|[ref j] rest IH]; intros bond_copy T; cbn [inertia_loop Spec.bonds_of].
  - by rewrite take_nil.
  - destruct (ref =? i); cbn [andb]; [|by rewrite take_nil].
    destruct (N.ltb_spec bond_copy limit) as [Hlt|Hge].
    + replace (N.to_nat (limit - bond_copy))
        with (S (N.to_nat (limit - (bond_copy + 1)))) by lia.
      cbn [take fmap list_fmap foldl]. apply IH.
    + by replace (N.to_nat (limit - bond_copy)) with 0%nat by lia.
Qed.

Lemma neighborhood_tensor_spec c i bond r_i :
  (forall a b : F, fmul a b = fmul b a) ->
  neighborhood_tensor c i bond r_i
  = Spec.inertia_tensor (Spec.frame_displacements c i bond r_i).
Proof.
  intros Hcomm. unfold neighborhood_tensor.
  rewrite inertia_loop_foldl, zero_tensor_entries, foldl_accumulate_bond by done.
  unfold Spec.inertia_tensor, Spec.inertia_entry, Spec.frame_displacements, Spec.frame_bonds.
  by replace (bond + nNeigh c - bond) with (nNeigh c) by lia.
Qed.

Lemma inertia_entry_sym (rvecs : list (vec3 F)) (ii jj : N) :
  (forall a b : F, fmul a b = fmul b a) ->
  Spec.inertia_entry ii jj rvecs = Spec.inertia_entry jj ii rvecs.
Proof.
  intros Hcomm. destruct (decide (ii = jj)) as [->|Hne]; [done|].
  unfold Spec.inertia_entry. generalize (f0 (F:=F)).
  induction rvecs as [|rvec rvecs IH]; intros acc; cbn [foldl]; [done|].
  rewrite IH, (Hcomm (Spec.component rvec ii)).
  by rewrite !decide_False by done.
Qed.

Lemma bonds_of_ref (i : N) (bonds : list (N * N)) :
  Forall (fun b : N * N => b.1 = i) (Spec.bonds_of i bonds).
Proof.
  induction bonds as [|[ref j] bonds IH]; cbn; [constructor|].
  destruct (N.eqb_spec ref i); by constructor.
Qed.

(** C7.  In LocalNeighborhood mode the frame of reference particle [i] comes
    from at most [nNeigh] bonds of [i]; their wrapped displacements are
    accumulated into a symmetric 3x3 tensor each of whose diagonal entries
    gains [|rvec|^2] and from each of whose entries the entry of the outer
    product of [rvec] with itself is taken; the eigensolver is applied to
    this tensor and column 0, 1, 2 of the eigenvectors it returns are
    [rotation_0], [rotation_1], [rotation_2], the eigenvalues playing no
    part. *)
Theorem local_neighborhood_frame (c : call F) (i bond : N) (r_i : vec3 F) :
  (forall a b : F, fmul a b = fmul b a) ->
  orientation c = LocalNeighborhood ->
  let bonds := Spec.frame_bonds (nlist c) (nNeigh c) i bond in
  let rvecs := Spec.frame_displacements c i bond r_i in
  let T := neighborhood_tensor c i bond r_i in
  (length bonds <= N.to_nat (nNeigh c))%nat
  /\ Forall (fun b : N * N => b.1 = i) bonds
  /\ T = Spec.inertia_tensor rvecs
  /\ (forall ii jj, ii < 3 -> jj < 3 ->
        T !! (ii, jj) = Some (Spec.inertia_entry ii jj rvecs)
        /\ T !! (ii, jj) = T !! (jj, ii))
  /\ (forall eigenvalues eigenvectors,
        diagonalize33SymmetricMatrix T = (eigenvalues, eigenvectors) ->
        frame c i bond r_i
        = inr (Vec3 (eigenvectors 0 0) (eigenvectors 1 0) (eigenvectors 2 0),
               Vec3 (eigenvectors 0 1) (eigenvectors 1 1) (eigenvectors 2 1),
               Vec3 (eigenvectors 0 2) (eigenvectors 1 2) (eigenvectors 2 2))).
Proof.
  intros Hcomm Hmode bonds rvecs T.
  assert (HT : T = Spec.inertia_tensor rvecs) by by apply neighborhood_tensor_spec.
  split_and!.
  - unfold bonds, Spec.frame_bonds. rewrite length_take. lia.
  - unfold bonds, Spec.frame_bonds. apply Forall_take, bonds_of_ref.
  - done.
  - intros ii jj Hi Hj. rewrite HT. unfold Spec.inertia_tensor.
    rewrite !lookup_tensor_of by done. split; [done|].
    by rewrite (inertia_entry_sym rvecs ii jj).
  - intros eigenvalues eigenvectors Hd. unfold frame. rewrite Hmode. cbn.
    fold T. by rewrite Hd.
Qed.

End InertiaFacts.

(** ** The engines on concrete inputs *)

Section Runs.
Import LocalDescriptors IntegerModel.

(** C3 as stated fails on three calls with 10, 5 and 8 bonds (width 3): the
    third call has fewer bonds than the 10 already seen and would fit the 30
    cells at hand, yet it allocates again and the capacity drops to 24. *)
Lemma capacity_is_not_a_high_water_mark :
  let ld0 : t Z := construct 1 false in
  let c1 := call_on (star 10) 1 None Global in
  let c2 := call_on (star 5) 1 None Global in
  let c3 := call_on (star 8) 1 None Global in
  let ld1 := after ld0 c1 in
  let ld2 := after ld1 c2 in
  let ld3 := after ld2 c3 in
  getSphWidth ld0 = 3
  /\ (compute ld0 c1).1 = Done /\ (compute ld1 c2).1 = Done /\ (compute ld2 c3).1 = Done
  /\ (getNSphs ld1 = 10 /\ capacity ld1 = 30 /\ allocations ld1 = 1%nat)
  /\ (getNSphs ld2 = 5 /\ capacity ld2 = 30 /\ allocations ld2 = 1%nat)
  /\ (getNSphs ld3 = 8 /\ capacity ld3 = 24 /\ allocations ld3 = 2%nat).
Proof. by vm_compute. Qed.

(** C4 as stated fails twice.  Without reference particles the mode is never
    looked at and the call succeeds.  And with two bonds after a call with
    one, the call fails with UnsupportedMode only after the three
    coefficients of the earlier call have been dropped for a fresh buffer of
    six zeros. *)
Lemma unsupported_mode_not_always_harmless :
  let ld0 : t Z := construct 1 false in
  let ld1 := after ld0 (call_on (star 1) 1 None Global) in
  (compute ld0 (call_on [] 0 None 7)).1 = Done
  /\ getSph ld1 = Some (replicate 3 (Complex 0%Z 3%Z))
  /\ (compute ld1 (call_on (star 2) 1 None 7)).1 = Failed UnsupportedMode
  /\ getSph (after ld1 (call_on (star 2) 1 None 7)) = Some (replicate 6 (Complex 0%Z 0%Z)).
Proof. by vm_compute. Qed.

Lemma compute_rejects_invalid_neighbor_list_witness :
  let ld : t Z := construct 1 false in
  let c := call_on [(0, 5)] 1 None Global in
  validate (nlist c) (Nref c) (Np c) = false
  /\ compute ld c = (Failed InvalidArgument, ld)
  /\ (forall (ld0 : t Z) (c0 : call Z) o ld', compute ld0 c0 = (o, ld') ->
        match o with
        | Done => getNP ld' = Nref c0
                  /\ getNSphs ld' = wrap32 (getNumBonds (nlist c0))
        | Failed _ => getNP ld' = getNP ld0 /\ getNSphs ld' = getNSphs ld0
        end).
Proof.
  intros ld c.
  assert (Hv : validate (nlist c) (Nref c) (Np c) = false) by reflexivity.
  split; [exact Hv|]. exact (compute_rejects_invalid_neighbor_list ld c Hv).
Defined.

Lemma buffer_follows_previous_call_witness :
  let ld : t Z := construct 1 false in
  let c1 := call_on (star 10) 1 None Global in
  let c2 := call_on (star 5) 1 None Global in
  let ld1 := after ld c1 in
  let ld2 := after ld1 c2 in
  compute ld c1 = (Done, ld1) /\ compute ld1 c2 = (Done, ld2)
  /\ getNumBonds (nlist c1) < UINT_BOUND /\ getNumBonds (nlist c2) < UINT_BOUND
  /\ (getNSphs ld < getNumBonds (nlist c1) ->
        capacity ld1 = getNumBonds (nlist c1) * getSphWidth ld)
  /\ getNSphs ld2 = getNumBonds (nlist c2)
  /\ if getNumBonds (nlist c2) <=? getNumBonds (nlist c1)
     then allocations ld2 = allocations ld1 /\ capacity ld2 = capacity ld1
     else allocations ld2 = S (allocations ld1)
          /\ capacity ld2 = getNumBonds (nlist c2) * getSphWidth ld.
Proof.
  intros ld c1 c2 ld1 ld2.
  assert (H1 : compute ld c1 = (Done, ld1)) by (vm_compute; reflexivity).
  assert (H2 : compute ld1 c2 = (Done, ld2)) by (vm_compute; reflexivity).
  assert (H3 : getNumBonds (nlist c1) < UINT_BOUND) by reflexivity.
  assert (H4 : getNumBonds (nlist c2) < UINT_BOUND) by reflexivity.
  split_and!; [exact H1|exact H2|exact H3|exact H4|..];
    apply (buffer_follows_previous_call ld ld1 ld2 c1 c2 H1 H2 H3 H4).
Defined.

Lemma compute_unsupported_mode_witness :
  let ld : t Z := construct 1 false in
  let c := call_on (star 2) 1 None 7 in
  validate (nlist c) (Nref c) (Np c) = true /\ 0 < Nref c
  /\ orientation c <> LocalNeighborhood /\ orientation c <> ParticleLocal
  /\ orientation c <> Global
  /\ exists ld', compute ld c = (Failed UnsupportedMode, ld')
       /\ getNP ld' = getNP ld /\ getNSphs ld' = getNSphs ld
       /\ (getNumBonds (nlist c) <= getNSphs ld -> ld' = ld)
       /\ (getNSphs ld < getNumBonds (nlist c) ->
           getSph ld'
           = Some (replicate (N.to_nat (getNumBonds (nlist c) * getSphWidth ld)) complex_zero)
           /\ allocations ld' = S (allocations ld)).
Proof.
  intros ld c.
  assert (H1 : validate (nlist c) (Nref c) (Np c) = true) by reflexivity.
  assert (H2 : 0 < Nref c) by reflexivity.
  assert (H3 : orientation c <> LocalNeighborhood) by discriminate.
  assert (H4 : orientation c <> ParticleLocal) by discriminate.
  assert (H5 : orientation c <> Global) by discriminate.
  split_and!; [exact H1|exact H2|exact H3|exact H4|exact H5|].
  exact (compute_unsupported_mode ld c H1 H2 H3 H4 H5).
Defined.

Lemma q_ref_read_only_in_ParticleLocal_witness :
  let ld : t Z := construct 1 false in
  let c := call_on (star 2) 1 None Global in
  let q := Some (fun _ : N => Quat 1%Z (Vec3 0%Z 0%Z 0%Z)) in
  (orientation c = LocalNeighborhood \/ orientation c = Global)
  /\ compute ld (set_q_ref c None) = compute ld (set_q_ref c q).
Proof.
  intros ld c q.
  assert (Hmode : orientation c = LocalNeighborhood \/ orientation c = Global)
    by (right; reflexivity).
  split; [exact Hmode|]. exact (q_ref_read_only_in_ParticleLocal ld c None q Hmode).
Defined.

Lemma local_neighborhood_frame_witness :
  let c := call_on (star 3) 1 None LocalNeighborhood in
  let r_i := Vec3 0%Z 0%Z 0%Z in
  (forall a b : Z, fmul a b = fmul b a)
  /\ orientation c = LocalNeighborhood
  /\ let bonds := Spec.frame_bonds (nlist c) (nNeigh c) 0 0 in
     let rvecs := Spec.frame_displacements c 0 0 r_i in
     let T := neighborhood_tensor c 0 0 r_i in
     (length bonds <= N.to_nat (nNeigh c))%nat
     /\ Forall (fun b : N * N => b.1 = 0) bonds
     /\ T = Spec.inertia_tensor rvecs
     /\ (forall ii jj, ii < 3 -> jj < 3 ->
           T !! (ii, jj) = Some (Spec.inertia_entry ii jj rvecs)
           /\ T !! (ii, jj) = T !! (jj, ii))
     /\ (forall eigenvalues eigenvectors,
           diagonalize33SymmetricMatrix T = (eigenvalues, eigenvectors) ->
           frame c 0 0 r_i
           = inr (Vec3 (eigenvectors 0 0) (eigenvectors 1 0) (eigenvectors 2 0),
                  Vec3 (eigenvectors 0 1) (eigenvectors 1 1) (eigenvectors 2 1),
                  Vec3 (eigenvectors 0 2) (eigenvectors 1 2) (eigenvectors 2 2))).
Proof.
  intros c r_i. split; [exact Z.mul_comm|]. split; [reflexivity|].
  exact (local_neighborhood_frame c 0 0 r_i Z.mul_comm eq_refl).
Defined.

(** The cache for [l = 5]. *)
Example factorial_cache_5 :
  RotationalAutocorrelation.m_factorials <$> RotationalAutocorrelation.construct (F:=Z) 5
  = Some (Some [1; 1; 2; 6; 24; 120]).
Proof. reflexivity. Qed.

(** [l = UINT_MAX]: [m_l + 1] wraps to an empty allocation and [a[0] = 1]
    falls outside it. *)
Example factorial_cache_uint_max :
  RotationalAutocorrelation.construct (F:=Z) 4294967295 = None.
Proof. reflexivity. Qed.

(** Widths for [lmax = 0..2]. *)
Example getSphWidth_small :
  (fun '(lmax, neg) => getSphWidth (F:=Z) (construct lmax neg))
    <$> [(0, false); (0, true); (1, false); (1, true); (2, false); (2, true)]
  = [1; 1; 3; 4; 6; 9].
Proof. reflexivity. Qed.

(** Two bonds in Global mode: each bond fills its own three cells with the
    angles of (3, 0, 4) in the integer stand-in. *)
Example compute_star2 :
  compute (construct 1 false) (call_on (star 2) 1 None Global)
  = (Done, Build 1 false 1 2 (Some (replicate 6 (Complex 0%Z 3%Z))) 1).
Proof. by vm_compute. Qed.

(** A null [q_ref] in ParticleLocal mode. *)
Example compute_null_q_ref :
  (compute (F:=Z) (construct 1 false) (call_on (star 2) 1 None ParticleLocal)).1
  = Failed Undefined.
Proof. by vm_compute. Qed.

(** The tensor of three bonds to a neighbour at (3, 0, 4): 3 (25 I - r r^T). *)
Example neighborhood_tensor_star3 :
  let c := call_on (star 3) 1 None LocalNeighborhood in
  let T := neighborhood_tensor c 0 0 (Vec3 0%Z 0%Z 0%Z) in
  T !! (0, 0) = Some 48%Z /\ T !! (0, 2) = Some (-36)%Z /\ T !! (1, 1) = Some 75%Z
  /\ T !! (2, 0) = Some (-36)%Z /\ T !! (2, 2) = Some 27%Z.
Proof. by vm_compute. Qed.

End Runs.

(** * Further properties *)

(** ** RotationalAutocorrelation: the range of the constructor *)

Section RotationalAutocorrelationRange.
Import RotationalAutocorrelation.
Context {F : Type} `{FloatOps F}.

Lemma wrap32_factorial_13 : wrap32 (factorial 13) <> factorial 13.
Proof. by vm_compute. Qed.

(** From 34! on, the factorials are multiples of 2^32. *)
Lemma wrap32_factorial_zero (i : nat) : (34 <= i)%nat -> wrap32 (factorial i) = 0.
Proof.
  induction 1 as [|m Hm IH]; [by vm_compute|].
  cbn [factorial]. by rewrite <- wrap32_mul_r, IH, N.mul_0_r.
Qed.

(** X1.  [RotationalAutocorrelation(l)] is defined for every [l] but
    [UINT_MAX]: there [m_l + 1] wraps to 0, the array is empty and the
    store to [m_factorials[0]] falls outside it. *)
Theorem construct_defined_iff (l : N) :
  l < UINT_BOUND ->
  is_Some (construct (F:=F) l) <-> l <> UINT_BOUND - 1.
Proof.
  intros Hl. split.
  - intros [ra Hra] ->. by vm_compute in Hra.
  - intros Hne. destruct (construct_cache (F:=F) l) as (cache & Hc & _).
    + unfold UINT_BOUND in *. lia.
    + by rewrite Hc.
Qed.

(** X2.  The cache built by [RotationalAutocorrelation(l)] holds the exact
    factorials 0! to l! if and only if [l <= 12]. *)
Theorem cache_exact_iff (l : N) :
  l < UINT_BOUND - 1 ->
  exists ra : t F, construct l = Some ra /\ (cache_exact ra <-> l <= 12).
Proof.
  intros Hl. destruct (construct_cache (F:=F) l Hl) as (cache & Hc & Hlen & Hcells).
  eexists. split; [exact Hc|]. split.
  - intros (cache' & Hc' & _ & Hexact). cbn in Hc', Hexact. injection Hc' as <-.
    destruct (N.le_gt_cases l 12) as [|Hbig]; [done|]. exfalso.
    specialize (Hexact 13%nat ltac:(lia)). rewrite Hcells in Hexact by lia.
    apply wrap32_factorial_13. congruence.
  - intros Hsmall. exists cache. cbn. split_and!; [done..|].
    intros i Hi. rewrite Hcells by done.
    rewrite wrap32_small; [done|]. apply factorial_fits. lia.
Qed.

(** X3.  In the cache built by [RotationalAutocorrelation(l)], entry 33 is
    2^31 and every entry from index 34 on is 0. *)
Theorem cache_vanishes_from_34 (l : N) :
  l < UINT_BOUND - 1 ->
  exists (ra : t F) (cache : list N),
    construct l = Some ra /\ m_factorials ra = Some cache
    /\ (33 <= l -> cache !! 33%nat = Some 2147483648)
    /\ (forall i, (34 <= i <= N.to_nat l)%nat -> cache !! i = Some 0).
Proof.
  intros Hl. destruct (construct_cache (F:=F) l Hl) as (cache & Hc & Hlen & Hcells).
  eexists _, cache. split_and!; [exact Hc|done| |].
  - intros H33. by rewrite Hcells by lia.
  - intros i [Hlo Hhi]. by rewrite Hcells, wrap32_factorial_zero.
Qed.

End RotationalAutocorrelationRange.

Lemma construct_defined_iff_witness :
  4294967295 < UINT_BOUND
  /\ (is_Some (RotationalAutocorrelation.construct (F:=Z) 4294967295)
      <-> 4294967295 <> UINT_BOUND - 1).
Proof.
  split; [reflexivity|]. apply (construct_defined_iff (F:=Z) 4294967295). reflexivity.
Defined.

Lemma cache_exact_iff_witness :
  12 < UINT_BOUND - 1
  /\ exists ra : RotationalAutocorrelation.t Z,
       RotationalAutocorrelation.construct 12 = Some ra
       /\ (RotationalAutocorrelation.cache_exact ra <-> 12 <= 12).
Proof.
  split; [reflexivity|]. apply (cache_exact_iff (F:=Z) 12). reflexivity.
Defined.

Lemma cache_vanishes_from_34_witness :
  40 < UINT_BOUND - 1
  /\ exists (ra : RotationalAutocorrelation.t Z) (cache : list N),
       RotationalAutocorrelation.construct 40 = Some ra
       /\ RotationalAutocorrelation.m_factorials ra = Some cache
       /\ (33 <= 40 -> cache !! 33%nat = Some 2147483648)
       /\ (forall i, (34 <= i <= N.to_nat 40)%nat -> cache !! i = Some 0).
Proof.
  split; [reflexivity|]. apply (cache_vanishes_from_34 (F:=Z) 40). reflexivity.
Defined.

(** ** LocalDescriptors: calls that end normally *)

Section ComputeSafety.
Import LocalDescriptors Pass.
Context {F : Type} `{FloatOps F} `{External F}.

Lemma wrap32_le (n : N) : wrap32 n <= n.
Proof. unfold wrap32. apply N.Div0.mod_le. Qed.

Lemma copy_to_some (buf : option (list (complex F))) off vals :
  (N.to_nat off + length vals <= N.to_nat (buffer_size buf))%nat ->
  exists buf', copy_to buf off vals = Some buf' /\ buffer_size buf' = buffer_size buf.
Proof.
  intros Hfit. destruct vals as [|v vals]; [by exists buf|].
  destruct buf as [cells|]; cbn in Hfit; [|lia].
  unfold copy_to. rewrite decide_True by (cbn; lia).
  eexists. split; [done|]. unfold buffer_size.
  by rewrite length_inserts.
Qed.

Lemma getSphWidth_same_config (ld ld' : t F) :
  m_lmax ld' = m_lmax ld -> m_negative_m ld' = m_negative_m ld ->
  getSphWidth ld' = getSphWidth ld.
Proof. unfold getSphWidth. by intros -> ->. Qed.

(** The bond loop ends normally when the buffer has a slot for every bond
    index it can reach. *)
Lemma bond_loop_done ld c i r_i rot rest :
  (forall phi theta,
     length (sph_eval (m_lmax ld) phi theta (m_negative_m ld))
     = N.to_nat (getSphWidth ld)) ->
  forall bond count buf,
    (rest <> [] -> (bond + N.of_nat (length rest)) * getSphWidth ld <= buffer_size buf) ->
    (bond_loop ld c i r_i rot rest bond count buf).1 = Done.
Proof.
  intros Hwidth. induction rest as [|[ref j] rest IH]; intros bond count buf Hfit; cbn; [done|].
  destruct ((ref =? i) && (count <? nNeigh c)); [|done].
  destruct (bond_angles rot _) as [theta phi].
  specialize (Hfit ltac:(done)). cbn [length] in Hfit.
  destruct (copy_to_some buf (wrap32 (bond * getSphWidth ld))
              (sph_eval (m_lmax ld) phi theta (m_negative_m ld)))
    as (buf' & -> & Hsize).
  { rewrite Hwidth. pose proof (wrap32_le (bond * getSphWidth ld)). nia. }
  apply IH. intros _. rewrite Hsize. nia.
Qed.

Lemma frame_defined_inr (c : call F) i bond r_i :
  frame_defined c -> exists rot, frame c i bond r_i = inr rot.
Proof.
  unfold frame. intros [-> | [-> | [-> [q ->]]]]; cbn; eauto.
Qed.

Lemma drop_bonds_bound (bonds : list (N * N)) (bond : N) :
  drop (N.to_nat bond) bonds <> [] ->
  bond + N.of_nat (length (drop (N.to_nat bond) bonds)) = N.of_nat (length bonds).
Proof.
  intros Hne. assert (length (drop (N.to_nat bond) bonds) <> 0%nat) as Hlen
    by (by destruct (drop _ _)).
  rewrite length_drop in *. lia.
Qed.

Lemma particle_loop_done ld c n :
  frame_defined c ->
  (forall phi theta,
     length (sph_eval (m_lmax ld) phi theta (m_negative_m ld))
     = N.to_nat (getSphWidth ld)) ->
  forall i buf,
    getNumBonds (nlist c) * getSphWidth ld <= buffer_size buf ->
    (particle_loop ld c n i buf).1 = Done.
Proof.
  intros Hframe Hwidth. induction n as [|n IH]; intros i buf Hfit; cbn; [done|].
  pose proof (particle_size ld c i buf) as Hsize. unfold particle in *.
  destruct (frame_defined_inr c i (find_first_index (nlist c) i) (r_ref c i) Hframe)
    as [rot Hrot]. rewrite Hrot in *.
  pose proof (bond_loop_done ld c i (r_ref c i) rot
                (drop (N.to_nat (find_first_index (nlist c) i)) (getNeighbors (nlist c)))
                Hwidth (find_first_index (nlist c) i) 0 buf) as Hdone.
  destruct (bond_loop _ _ _ _ _ _ _ _ _) as [o buf']. cbn in Hsize, Hdone.
  rewrite Hdone.
  - apply IH. by rewrite Hsize.
  - intros Hne. by rewrite drop_bonds_bound.
Qed.

(** Every call keeps a slot for each bond of the stored bond count. *)
Lemma compute_buffer_fits (ld : t F) (c : call F) :
  buffer_fits ld -> buffer_fits (compute ld c).2.
Proof.
  unfold buffer_fits. intros Hfit.
  pose proof (compute_members ld c) as Hm.
  pose proof (compute_buffer ld c (compute ld c).1 (compute ld c).2) as Hb.
  destruct (validate (nlist c) (Nref c) (Np c)) eqn:Hv;
    [|unfold compute; by rewrite Hv].
  specialize (Hb ltac:(by destruct (compute ld c)) eq_refl).
  destruct (compute ld c) as [o ld']. cbn in *.
  destruct Hm as (Hl & Hn & Hmeta).
  rewrite (getSphWidth_same_config ld ld') by done.
  pose proof (wrap32_le (getNumBonds (nlist c))) as Hwrap.
  destruct (N.ltb_spec (m_nSphs ld) (getNumBonds (nlist c))) as [Hlt|Hge];
    destruct Hb as [_ ->]; destruct o; destruct Hmeta as [_ ->]; nia.
Qed.

Lemma reachable_config lmax negative_m (ld : t F) :
  reachable lmax negative_m ld ->
  m_lmax ld = lmax /\ m_negative_m ld = negative_m /\ buffer_fits ld.
Proof.
  induction 1 as [|ld c _ (Hl & Hn & Hfit)].
  - split_and!; [done..|]. unfold buffer_fits, capacity. cbn. lia.
  - pose proof (compute_members ld c) as Hm.
    pose proof (compute_buffer_fits ld c Hfit) as Hfit'.
    destruct (compute ld c) as [o ld']. cbn in *.
    destruct Hm as (-> & -> & _). done.
Qed.

(** X4.  Whatever calls of [compute] an engine built by
    [LocalDescriptors(lmax, negative_m)] has gone through, failed or not,
    [getLMax()] and the width are those of the constructor and the buffer
    owns at least [getNSphs() * getSphWidth()] cells. *)
Theorem reachable_invariant lmax negative_m (ld : t F) :
  reachable lmax negative_m ld ->
  getLMax ld = lmax
  /\ getSphWidth ld = getSphWidth (construct lmax negative_m)
  /\ getNSphs ld * getSphWidth ld <= capacity ld.
Proof.
  intros Hr. destruct (reachable_config _ _ _ Hr) as (Hl & Hn & Hfit).
  split_and!; [done| |done]. by apply getSphWidth_same_config.
Qed.

(** X5.  On such an engine a call ends normally, with no write outside the
    buffer, as soon as the neighbour list validates, the mode is one of the
    three (with orientations at hand for ParticleLocal) and the evaluator
    yields [getSphWidth()] coefficients; the stored [Nref] and bond count
    are then those of the call. *)
Theorem compute_ends_normally lmax negative_m (ld : t F) (c : call F) :
  reachable lmax negative_m ld ->
  validate (nlist c) (Nref c) (Np c) = true ->
  frame_defined c ->
  (forall phi theta,
     length (sph_eval lmax phi theta negative_m) = N.to_nat (getSphWidth ld)) ->
  exists ld', compute ld c = (Done, ld')
    /\ getNP ld' = Nref c /\ getNSphs ld' = wrap32 (getNumBonds (nlist c)).
Proof.
  intros Hr Hv Hframe Hwidth.
  destruct (reachable_config _ _ _ Hr) as (Hl & Hn & Hfit).
  pose proof (compute_members ld c) as Hm.
  assert (Hdone : (compute ld c).1 = Done).
  { unfold compute. rewrite Hv.
    set (ld1 := reallocate ld (getNumBonds (nlist c))).
    assert (Hl1 : m_lmax ld1 = m_lmax ld) by (unfold ld1, reallocate; by destruct (_ <? _)).
    assert (Hn1 : m_negative_m ld1 = m_negative_m ld)
      by (unfold ld1, reallocate; by destruct (_ <? _)).
    pose proof (particle_loop_done ld1 c (N.to_nat (Nref c)) Hframe) as Hloop.
    rewrite Hl1, Hn1, Hl, Hn, (getSphWidth_same_config ld ld1) in Hloop by done.
    specialize (Hloop Hwidth 0 (m_sphArray ld1)).
    destruct (particle_loop _ _ _ _ _) as [o buf]. cbn in Hloop.
    rewrite Hloop; [done|].
    unfold ld1, reallocate, buffer_fits, capacity in *.
    destruct (N.ltb_spec (m_nSphs ld) (getNumBonds (nlist c))); cbn.
    - rewrite length_replicate. lia.
    - nia. }
  destruct (compute ld c) as [o ld']. cbn in Hdone. subst o.
  exists ld'. by destruct Hm as (_ & _ & ? & ?).
Qed.

(** X8.  With an empty neighbour list that validates, a call in one of the
    three modes ends normally without allocating and without touching the
    buffer; it stores [Nref] and a bond count of 0. *)
Theorem compute_empty_list (ld : t F) (c : call F) :
  getNeighbors (nlist c) = [] ->
  validate (nlist c) (Nref c) (Np c) = true ->
  frame_defined c ->
  compute ld c
  = (Done, Build (m_lmax ld) (m_negative_m ld) (Nref c) 0 (m_sphArray ld) (allocations ld)).
Proof.
  intros Hempty Hv Hframe. unfold compute, getNumBonds. rewrite Hv, Hempty. cbn [length].
  assert (Hre : reallocate ld (N.of_nat 0) = ld).
  { unfold reallocate. by rewrite (proj2 (N.ltb_ge _ _)) by lia. }
  rewrite Hre.
  assert (Hloop : forall n i buf, particle_loop ld c n i buf = (Done, buf)).
  { induction n as [|n IH]; intros i buf; cbn; [done|]. unfold particle.
    destruct (frame_defined_inr c i (find_first_index (nlist c) i) (r_ref c i) Hframe)
      as [rot ->].
    rewrite Hempty, drop_nil. cbn. apply IH. }
  by rewrite Hloop.
Qed.

End ComputeSafety.

(** ** LocalDescriptors: the contents of the buffer after a call *)

Section ComputeOutput.
Import LocalDescriptors Pass.
Context {F : Type} `{FloatOps F} `{External F}.

Lemma copy_to_cell (buf buf' : option (list (complex F))) off vals :
  copy_to buf off vals = Some buf' ->
  forall p, cell buf' p
            = if decide (N.to_nat off <= p < N.to_nat off + length vals)%nat
              then vals !! (p - N.to_nat off)%nat else cell buf p.
Proof.
  unfold copy_to. intros Hcopy p. destruct vals as [|v vals].
  { injection Hcopy as <-. rewrite decide_False; [done|]. cbn. lia. }
  destruct buf as [cells|]; [|done]. case_decide as Hfit; [|done].
  injection Hcopy as <-. unfold cell. cbn [mbind option_bind].
  change (<[N.to_nat off:=v]> (list_inserts (S (N.to_nat off)) vals cells))
    with (list_inserts (N.to_nat off) (v :: vals) cells).
  case_decide as Hp.
  - apply list_lookup_inserts; lia.
  - destruct (decide (p < N.to_nat off)%nat).
    + by apply list_lookup_inserts_lt.
    + apply list_lookup_inserts_ge. lia.
Qed.

Lemma bonds_of_lookup (i : N) (l : list (N * N)) : forall k b,
  Spec.bonds_of i l !! k = Some b -> l !! k = Some b /\ b.1 = i.
Proof.
  induction l as [|[ref j] l IH]; intros k b; cbn; [done|].
  destruct (N.eqb_spec ref i) as [->|]; [|done].
  destruct k as [|k]; cbn; [by intros [= <-]|]. apply IH.
Qed.

(** A visited bond is a bond of the list, at the offset the pass gives it,
    and its reference index is the particle's. *)
Lemma visited_lookup (c : call F) (i : N) (k : nat) (b : N * N) :
  visited c i !! k = Some b ->
  getNeighbors (nlist c) !! (N.to_nat (find_first_index (nlist c) i) + k)%nat = Some b
  /\ b.1 = i.
Proof.
  unfold visited, Spec.frame_bonds. intros [Hb _]%lookup_take_Some.
  apply bonds_of_lookup in Hb as [Hb Hi]. by rewrite lookup_drop in Hb.
Qed.

Lemma slot_index (W a n b q p : nat) :
  (q < W)%nat -> p = (b * W + q)%nat -> (a * W <= p < (a + n) * W)%nat ->
  (a <= b < a + n)%nat.
Proof. intros Hq -> [Hlo Hhi]. split; nia. Qed.

Lemma coefficients_same_config (ld ld' : t F) c rot r_i j :
  m_lmax ld' = m_lmax ld -> m_negative_m ld' = m_negative_m ld ->
  coefficients ld' c rot r_i j = coefficients ld c rot r_i j.
Proof. unfold coefficients. by intros -> ->. Qed.

Section OnePass.
Variables (ld : t F) (c : call F) (W : nat).
Hypothesis HW : W = N.to_nat (getSphWidth ld).
Hypothesis Hwidth : forall phi theta,
  length (sph_eval (m_lmax ld) phi theta (m_negative_m ld)) = W.

(** The cells after the bond loop: the slots of the bonds it went through
    hold their coefficients, every cell outside these slots is as before. *)
Lemma bond_loop_cells i r_i rot rest : forall bond count buf buf',
  (rest <> [] -> (bond + N.of_nat (length rest)) * getSphWidth ld <= UINT_BOUND) ->
  bond_loop ld c i r_i rot rest bond count buf = (Done, buf') ->
  let visited := take (N.to_nat (nNeigh c - count)) (Spec.bonds_of i rest) in
  (forall k b q, visited !! k = Some b -> (q < W)%nat ->
     cell buf' ((N.to_nat bond + k) * W + q) = coefficients ld c rot r_i b.2 !! q)
  /\ (forall p, (p < N.to_nat bond * W \/ (N.to_nat bond + length visited) * W <= p)%nat ->
        cell buf' p = cell buf p).
Proof using HW Hwidth.
  induction rest as [|[ref j] rest IH]; intros bond count buf buf' Hwrap Hrun;
    cbn [bond_loop Spec.bonds_of] in *.
  { injection Hrun as <-. rewrite take_nil. by split. }
  destruct (N.eqb_spec ref i) as [->|Hne]; cbn [andb] in Hrun;
    [|injection Hrun as <-; rewrite take_nil; by split].
  destruct (N.ltb_spec count (nNeigh c)) as [Hcount|Hcount];
    [|injection Hrun as <-;
      replace (N.to_nat (nNeigh c - count)) with 0%nat by lia; by split].
  replace (N.to_nat (nNeigh c - count))
    with (S (N.to_nat (nNeigh c - (count + 1)))) by lia.
  cbn [take]. specialize (Hwrap ltac:(done)). cbn [length] in Hwrap.
  assert (Hoff : N.to_nat (wrap32 (bond * getSphWidth ld)) = (N.to_nat bond * W)%nat).
  { rewrite wrap32_small; [lia|].
    destruct (decide (getSphWidth ld = 0)) as [->|]; [by rewrite N.mul_0_r|].
    unfold UINT_BOUND in *. nia. }
  destruct (bond_angles rot _) as [theta phi] eqn:Hangles.
  destruct (copy_to buf _ _) as [buf1|] eqn:Hcopy; [|done].
  pose proof (copy_to_cell _ _ _ _ Hcopy) as Hcell. rewrite Hoff, Hwidth in Hcell.
  destruct (IH (bond + 1) (count + 1) buf1 buf') as [IH1 IH2]; [|done|].
  { intros _. nia. }
  set (rest_visited := take _ (Spec.bonds_of i rest)) in *.
  replace (N.to_nat (bond + 1)) with (S (N.to_nat bond)) in IH1, IH2 by lia.
  split.
  - intros [|k] b q Hb Hq.
    + injection Hb as <-. rewrite IH2 by lia. rewrite Hcell.
      rewrite decide_True by lia. unfold coefficients. cbn [snd]. rewrite Hangles.
      f_equal. lia.
    + replace ((N.to_nat bond + S k) * W + q)%nat
        with ((S (N.to_nat bond) + k) * W + q)%nat by lia.
      by apply IH1.
  - intros p Hp. cbn [length] in Hp. rewrite IH2 by lia. rewrite Hcell.
    rewrite decide_False; [done|]. lia.
Qed.

Hypothesis Hnowrap : getNumBonds (nlist c) * getSphWidth ld <= UINT_BOUND.

Lemma particle_cells i buf buf' :
  particle ld c i buf = (Done, buf') ->
  exists rot, frame c i (find_first_index (nlist c) i) (r_ref c i) = inr rot
    /\ (forall k b q, visited c i !! k = Some b -> (q < W)%nat ->
          cell buf' ((N.to_nat (find_first_index (nlist c) i) + k) * W + q)
          = coefficients ld c rot (r_ref c i) b.2 !! q)
    /\ (forall p,
          (p < N.to_nat (find_first_index (nlist c) i) * W
           \/ (N.to_nat (find_first_index (nlist c) i) + length (visited c i)) * W <= p)%nat ->
          cell buf' p = cell buf p).
Proof using HW Hwidth Hnowrap.
  unfold particle. destruct (frame c i _ _) as [e|rot]; [done|]. intros Hrun.
  exists rot. split; [done|].
  pose proof (bond_loop_cells i (r_ref c i) rot _ _ _ _ _
                (fun Hne => eq_ind_r (fun x => x * _ <= _) Hnowrap
                              (drop_bonds_bound _ _ Hne)) Hrun) as Hcells.
  by rewrite N.sub_0_r in Hcells.
Qed.

Lemma particle_loop_cells n : forall i0 buf buf',
  particle_loop ld c n i0 buf = (Done, buf') ->
  (forall i, i0 <= i < i0 + N.of_nat n ->
     exists rot, frame c i (find_first_index (nlist c) i) (r_ref c i) = inr rot
       /\ forall k b q, visited c i !! k = Some b -> (q < W)%nat ->
            cell buf' ((N.to_nat (find_first_index (nlist c) i) + k) * W + q)
            = coefficients ld c rot (r_ref c i) b.2 !! q)
  /\ (forall p,
        (forall i, i0 <= i < i0 + N.of_nat n ->
           ~ (N.to_nat (find_first_index (nlist c) i) * W <= p
              < (N.to_nat (find_first_index (nlist c) i) + length (visited c i)) * W)%nat) ->
        cell buf' p = cell buf p).
Proof using HW Hwidth Hnowrap.
  induction n as [|n IH]; intros i0 buf buf' Hrun; cbn [particle_loop] in Hrun.
  { injection Hrun as <-. split; [lia|done]. }
  destruct (particle ld c i0 buf) as [[|e] buf1] eqn:Hfirst; [|done].
  destruct (particle_cells _ _ _ Hfirst) as (rot0 & Hrot0 & Hin0 & Hout0).
  destruct (IH _ _ _ Hrun) as [IH1 IH2]. split.
  - intros i Hi. destruct (decide (i = i0)) as [->|Hne]; [|apply IH1; lia].
    exists rot0. split; [done|]. intros k b q Hb Hq.
    rewrite IH2; [by apply Hin0|].
    intros i Hi' Hrange.
    eapply slot_index in Hrange as [Hlo Hhi]; [|done..].
    destruct (lookup_lt_is_Some_2 (visited c i)
                (N.to_nat (find_first_index (nlist c) i0) + k
                 - N.to_nat (find_first_index (nlist c) i))%nat) as [b' Hb']; [lia|].
    apply visited_lookup in Hb as [Hb Href], Hb' as [Hb' Href'].
    replace (N.to_nat (find_first_index (nlist c) i)
             + (N.to_nat (find_first_index (nlist c) i0) + k
                - N.to_nat (find_first_index (nlist c) i)))%nat
      with (N.to_nat (find_first_index (nlist c) i0) + k)%nat in Hb' by lia.
    assert (b' = b) by congruence. subst b'. lia.
  - intros p Hp. rewrite IH2 by (intros i Hi; apply Hp; lia).
    apply Hout0. specialize (Hp i0 ltac:(lia)). lia.
Qed.

End OnePass.

(** X6.  After a call that ended normally, with an evaluator that yields
    [getSphWidth()] coefficients and [numBonds * sphWidth] within the range
    of an [unsigned int]: for every reference particle [i] below [Nref], the
    [k]-th of its visited bonds (at most [nNeigh] consecutive bonds of [i]
    from offset [find_first_index(i)], the very bonds that enter its
    LocalNeighborhood frame) is bond [find_first_index(i) + k] of the list,
    and the slot of that bond holds the coefficients computed from the frame
    of [i] and the wrapped displacement to its neighbour. *)
Theorem compute_output (ld ld' : t F) (c : call F) :
  compute ld c = (Done, ld') ->
  (forall phi theta,
     length (sph_eval (m_lmax ld) phi theta (m_negative_m ld))
     = N.to_nat (getSphWidth ld)) ->
  getNumBonds (nlist c) * getSphWidth ld <= UINT_BOUND ->
  forall i k b q,
    i < Nref c -> visited c i !! k = Some b -> (q < N.to_nat (getSphWidth ld))%nat ->
    getNeighbors (nlist c) !! (N.to_nat (find_first_index (nlist c) i) + k)%nat = Some b
    /\ b.1 = i
    /\ exists rot, frame c i (find_first_index (nlist c) i) (r_ref c i) = inr rot
         /\ cell (getSph ld')
              ((N.to_nat (find_first_index (nlist c) i) + k) * N.to_nat (getSphWidth ld) + q)
            = coefficients ld c rot (r_ref c i) b.2 !! q.
Proof.
  intros Hrun Hwidth Hnowrap i k b q Hi Hb Hq.
  destruct (visited_lookup c i k b Hb) as [Hlist Href]. split_and!; [done..|].
  unfold compute in Hrun. destruct (validate _ _ _); [|done].
  set (ld1 := reallocate ld (getNumBonds (nlist c))) in *.
  assert (Hl1 : m_lmax ld1 = m_lmax ld) by (unfold ld1, reallocate; by destruct (_ <? _)).
  assert (Hn1 : m_negative_m ld1 = m_negative_m ld)
    by (unfold ld1, reallocate; by destruct (_ <? _)).
  assert (Hw1 : getSphWidth ld1 = getSphWidth ld) by by apply getSphWidth_same_config.
  destruct (particle_loop ld1 c _ _ _) as [[|e] buf] eqn:Hloop; [|done].
  injection Hrun as <-. cbn [getSph m_sphArray].
  destruct (particle_loop_cells ld1 c (N.to_nat (getSphWidth ld))) with
    (n := N.to_nat (Nref c)) (i0 := 0) (buf := m_sphArray ld1) (buf' := buf)
    as [Hin _]; [by rewrite Hw1|by rewrite Hl1, Hn1|by rewrite Hw1|done|].
  destruct (Hin i ltac:(lia)) as (rot & Hrot & Hcells). exists rot. split; [done|].
  rewrite (Hcells k b q) by done. by rewrite (coefficients_same_config ld ld1).
Qed.

(** X7.  After such a call every cell outside the slots of the visited
    bonds is as the reallocation left it: zero when the call allocated
    (its bond count exceeded the stored one), and otherwise the value, now
    stale, that the cell had before the call. *)
Theorem compute_untouched (ld ld' : t F) (c : call F) (p : nat) :
  compute ld c = (Done, ld') ->
  (forall phi theta,
     length (sph_eval (m_lmax ld) phi theta (m_negative_m ld))
     = N.to_nat (getSphWidth ld)) ->
  getNumBonds (nlist c) * getSphWidth ld <= UINT_BOUND ->
  ~ written c (N.to_nat (getSphWidth ld)) p ->
  (getNSphs ld < getNumBonds (nlist c) ->
     cell (getSph ld') p
     = replicate (N.to_nat (getNumBonds (nlist c) * getSphWidth ld)) complex_zero !! p)
  /\ (getNumBonds (nlist c) <= getNSphs ld -> cell (getSph ld') p = cell (getSph ld) p).
Proof.
  intros Hrun Hwidth Hnowrap Hfree.
  unfold compute in Hrun. destruct (validate _ _ _); [|done].
  set (ld1 := reallocate ld (getNumBonds (nlist c))) in *.
  assert (Hl1 : m_lmax ld1 = m_lmax ld) by (unfold ld1, reallocate; by destruct (_ <? _)).
  assert (Hn1 : m_negative_m ld1 = m_negative_m ld)
    by (unfold ld1, reallocate; by destruct (_ <? _)).
  assert (Hw1 : getSphWidth ld1 = getSphWidth ld) by by apply getSphWidth_same_config.
  destruct (particle_loop ld1 c _ _ _) as [[|e] buf] eqn:Hloop; [|done].
  injection Hrun as <-. cbn [getSph m_sphArray].
  destruct (particle_loop_cells ld1 c (N.to_nat (getSphWidth ld))) with
    (n := N.to_nat (Nref c)) (i0 := 0) (buf := m_sphArray ld1) (buf' := buf)
    as [_ Hout]; [by rewrite Hw1|by rewrite Hl1, Hn1|by rewrite Hw1|done|].
  rewrite Hout.
  - unfold ld1, reallocate, getNSphs. split; intros Hcmp.
    + by rewrite (proj2 (N.ltb_lt _ _) Hcmp).
    + by rewrite (proj2 (N.ltb_ge _ _) Hcmp).
  - intros i Hi Hrange. apply Hfree. exists i. split; [lia|done].
Qed.

End ComputeOutput.

(** ** LocalDescriptors: what a call reads, and how it can fail *)

Section ComputeInputs.
Import LocalDescriptors Pass.
Context {F : Type} `{FloatOps F} `{External F}.

Section Arrays.
Variables (c : call F) (r_ref' r' : N -> vec3 F) (q_ref' : option (N -> quat F)).
Hypothesis Hr_ref : forall i, i < Nref c -> r_ref' i = r_ref c i.
Hypothesis Hq_ref : same_orientations (Nref c) (q_ref c) q_ref'.

Lemma inertia_loop_with_arrays i r_i limit rest : forall bond_copy T,
  Forall (fun b : N * N => r' b.2 = r c b.2) rest ->
  inertia_loop (with_arrays c r_ref' r' q_ref') i r_i limit rest bond_copy T
  = inertia_loop c i r_i limit rest bond_copy T.
Proof using Type.
  induction rest as [|[ref j] rest IH]; intros bond_copy T Hr; cbn; [done|].
  inversion_clear Hr as [|? ? Hj Hrest]. cbn in Hj. rewrite Hj. by rewrite IH.
Qed.

Lemma bond_loop_with_arrays ld i r_i rot rest : forall bond count buf,
  Forall (fun b : N * N => r' b.2 = r c b.2) rest ->
  bond_loop ld (with_arrays c r_ref' r' q_ref') i r_i rot rest bond count buf
  = bond_loop ld c i r_i rot rest bond count buf.
Proof using Type.
  induction rest as [|[ref j] rest IH]; intros bond count buf Hr; cbn; [done|].
  inversion_clear Hr as [|? ? Hj Hrest]. cbn in Hj. rewrite Hj.
  destruct ((ref =? i) && (count <? nNeigh c)); [|done].
  destruct (bond_angles rot _) as [theta phi].
  destruct (copy_to buf _ _) as [buf'|]; [|done]. by apply IH.
Qed.

Hypothesis Hr : Forall (fun b : N * N => r' b.2 = r c b.2) (getNeighbors (nlist c)).

Lemma frame_with_arrays i bond r_i :
  i < Nref c ->
  frame (with_arrays c r_ref' r' q_ref') i bond r_i = frame c i bond r_i.
Proof using Hr Hq_ref.
  intros Hi. unfold frame, neighborhood_tensor. cbn.
  rewrite inertia_loop_with_arrays by by apply Forall_drop.
  unfold same_orientations in Hq_ref.
  destruct (q_ref c) as [q|], q_ref' as [q'|]; try done.
  by rewrite Hq_ref.
Qed.

Lemma particle_loop_with_arrays ld n : forall i0 buf,
  i0 + N.of_nat n <= Nref c ->
  particle_loop ld (with_arrays c r_ref' r' q_ref') n i0 buf
  = particle_loop ld c n i0 buf.
Proof using Hr Hr_ref Hq_ref.
  induction n as [|n IH]; intros i0 buf Hn; cbn; [done|].
  unfold particle. cbn [with_arrays nlist r_ref getNeighbors].
  rewrite Hr_ref, frame_with_arrays by lia.
  destruct (frame c i0 _ _) as [e|rot]; [done|].
  rewrite bond_loop_with_arrays by by apply Forall_drop.
  destruct (bond_loop _ _ _ _ _ _ _ _ _) as [[|e] buf']; [|done].
  apply IH. lia.
Qed.

End Arrays.

(** X9.  A call reads [r_ref] and [q_ref] below [Nref] only, and [r] at the
    neighbour indices of the bond list only: with other memory everywhere
    else behind the three pointers, the outcome and the engine afterwards
    are the same. *)
Theorem compute_reads (ld : t F) (c : call F) (r_ref' r' : N -> vec3 F)
    (q_ref' : option (N -> quat F)) :
  (forall i, i < Nref c -> r_ref' i = r_ref c i) ->
  Forall (fun b : N * N => r' b.2 = r c b.2) (getNeighbors (nlist c)) ->
  same_orientations (Nref c) (q_ref c) q_ref' ->
  compute ld (with_arrays c r_ref' r' q_ref') = compute ld c.
Proof.
  intros Hr_ref Hr Hq_ref. unfold compute. cbn [with_arrays nlist Nref Np].
  by rewrite particle_loop_with_arrays by (done || lia).
Qed.

(** X10.  A particle none of whose bonds is visited (it has no bond at the
    offset given for it, or [nNeigh] is 0) hands the all-zero matrix to the
    eigensolver in LocalNeighborhood mode, so that all such particles get
    one and the same frame, whatever the positions. *)
Theorem neighborhood_tensor_no_bonds (c : call F) (i bond : N) (r_i : vec3 F) :
  Spec.frame_bonds (nlist c) (nNeigh c) i bond = [] ->
  neighborhood_tensor c i bond r_i = Spec.tensor_of (fun _ _ => f0)
  /\ (orientation c = LocalNeighborhood ->
      frame c i bond r_i
      = inr (frame_of_eigenvectors
               (snd (diagonalize33SymmetricMatrix (Spec.tensor_of (fun _ _ => f0)))))).
Proof.
  intros Hnone.
  assert (HT : neighborhood_tensor c i bond r_i = Spec.tensor_of (fun _ _ => f0)).
  { unfold neighborhood_tensor. rewrite inertia_loop_foldl.
    replace (bond + nNeigh c - bond) with (nNeigh c) by lia.
    unfold Spec.frame_bonds in Hnone. by rewrite Hnone. }
  split; [done|]. intros Hmode. unfold frame. by rewrite Hmode, HT.
Qed.

(** X11.  Provided [std::isnan] rejects neither 0 nor [M_PI], the polar
    angle handed to the evaluator is never one that [std::isnan] flags:
    it is the result of [acos] when that is a number, and otherwise 0 for a
    positive [z] and [M_PI] for any other [z]. *)
Theorem polar_angle_guard (rot : vec3 F * vec3 F * vec3 F) (rij : vec3 F) :
  fisnan f0 = false -> fisnan f_pi = false ->
  let z := dot rot.2 rij in
  let raw := facos (fdiv z (fsqrt (dot rij rij))) in
  fisnan (bond_angles rot rij).2 = false
  /\ (bond_angles rot rij).2
     = if fisnan raw then (if flt f0 z then f0 else f_pi) else raw.
Proof.
  intros Hzero Hpi. destruct rot as [[r0 r1] r2]. cbn.
  destruct (fisnan (facos _)) eqn:Hnan; [|done].
  by destruct (flt f0 _).
Qed.

(** *** The two exceptions *)

Lemma bond_loop_outcome ld c i r_i rot rest : forall bond count buf,
  (bond_loop ld c i r_i rot rest bond count buf).1 = Done
  \/ (bond_loop ld c i r_i rot rest bond count buf).1 = Failed Undefined.
Proof.
  induction rest as [|[ref j] rest IH]; intros bond count buf; cbn; [by left|].
  destruct ((ref =? i) && (count <? nNeigh c)); [|by left].
  destruct (bond_angles rot _) as [theta phi].
  destruct (copy_to buf _ _) as [buf'|]; [apply IH|by right].
Qed.

(** A frame fails on a null [q_ref] or on an unknown mode, nothing else. *)
Lemma frame_failure (c : call F) i bond r_i e :
  frame c i bond r_i = inl e ->
  e = Undefined
  \/ (e = UnsupportedMode /\ orientation c <> LocalNeighborhood
      /\ orientation c <> ParticleLocal /\ orientation c <> Global).
Proof.
  unfold frame.
  destruct (N.eqb_spec (orientation c) LocalNeighborhood); [done|].
  destruct (N.eqb_spec (orientation c) ParticleLocal).
  { destruct (q_ref c); [done|]. intros [= <-]. by left. }
  destruct (N.eqb_spec (orientation c) Global); [done|].
  intros [= <-]. by right.
Qed.

Lemma particle_loop_outcome ld c n : forall i buf,
  (particle_loop ld c n i buf).1 <> Failed InvalidArgument
  /\ ((particle_loop ld c n i buf).1 = Failed UnsupportedMode ->
      orientation c <> LocalNeighborhood /\ orientation c <> ParticleLocal
      /\ orientation c <> Global).
Proof.
  induction n as [|n IH]; intros i buf; cbn; [done|]. unfold particle.
  destruct (frame c i _ _) as [e|rot] eqn:Hframe.
  - apply frame_failure in Hframe as [->|(-> & Hmode)]; cbn; split; done.
  - pose proof (bond_loop_outcome ld c i (r_ref c i) rot
                  (drop (N.to_nat (find_first_index (nlist c) i)) (getNeighbors (nlist c)))
                  (find_first_index (nlist c) i) 0 buf) as Hb.
    destruct (bond_loop _ _ _ _ _ _ _ _ _) as [[|e] buf']; cbn in Hb; [apply IH|].
    destruct Hb as [|[= ->]]; done.
Qed.

(** X12.  [compute] raises InvalidArgument exactly when the neighbour list
    does not validate, and UnsupportedMode exactly when the list validates,
    there is at least one reference particle and the mode is none of
    LocalNeighborhood, ParticleLocal and Global. *)
Theorem compute_exceptions (ld : t F) (c : call F) :
  ((compute ld c).1 = Failed InvalidArgument
   <-> validate (nlist c) (Nref c) (Np c) = false)
  /\ ((compute ld c).1 = Failed UnsupportedMode
      <-> validate (nlist c) (Nref c) (Np c) = true /\ 0 < Nref c
          /\ orientation c <> LocalNeighborhood /\ orientation c <> ParticleLocal
          /\ orientation c <> Global).
Proof.
  unfold compute. destruct (validate _ _ _) eqn:Hv; [|split; [done|split; [done|]]].
  2:{ by intros []. }
  set (ld1 := reallocate ld _).
  pose proof (particle_loop_outcome ld1 c (N.to_nat (Nref c)) 0 (m_sphArray ld1))
    as [Hinv Hmode].
  split; [split; [|done]|split].
  - intros Hfail. destruct (particle_loop _ _ _ _ _) as [[|e] buf]; [done|].
    cbn in *. congruence.
  - intros Hfail.
    assert (Hloop : (particle_loop ld1 c (N.to_nat (Nref c)) 0 (m_sphArray ld1)).1
                    = Failed UnsupportedMode)
      by (destruct (particle_loop _ _ _ _ _) as [[|e] buf]; [done|]; cbn in *; congruence).
    split_and!; [done| |by apply Hmode..].
    destruct (N.to_nat (Nref c)) eqn:Hn; [done|lia].
  - intros (_ & Hpos & Hn & Hp & Hg).
    replace (N.to_nat (Nref c)) with (S (N.to_nat (Nref c - 1))) by lia.
    by rewrite particle_loop_unsupported.
Qed.

End ComputeInputs.

(** ** LocalDescriptors: the same call again *)

Section ComputeRepeat.
Import LocalDescriptors Pass.
Context {F : Type} `{FloatOps F} `{External F}.

(** Copying values onto cells that hold them already changes nothing. *)
Lemma copy_to_same (buf : option (list (complex F))) off vals :
  (forall q, (q < length vals)%nat -> cell buf (N.to_nat off + q) = vals !! q) ->
  copy_to buf off vals = Some buf.
Proof.
  intros Hsame. destruct vals as [|v vals]; [done|].
  destruct buf as [cells|]; [|by specialize (Hsame 0%nat ltac:(cbn; lia))].
  unfold copy_to, cell in *. cbn [mbind option_bind] in Hsame.
  assert (Hfit : (N.to_nat off + length (v :: vals) <= length cells)%nat).
  { pose proof (Hsame (length vals) ltac:(cbn; lia)) as Hlast.
    assert (is_Some (cells !! (N.to_nat off + length vals)%nat)) as Hin.
    { rewrite Hlast. apply lookup_lt_is_Some. cbn. lia. }
    apply lookup_lt_is_Some in Hin. cbn. lia. }
  rewrite decide_True by done. do 2 f_equal.
  apply list_eq. intros p.
  destruct (decide (N.to_nat off <= p < N.to_nat off + length (v :: vals))%nat) as [Hp|Hp].
  - rewrite list_lookup_inserts by lia.
    rewrite <- Hsame by lia. f_equal. lia.
  - destruct (decide (p < N.to_nat off)%nat).
    + by apply list_lookup_inserts_lt.
    + apply list_lookup_inserts_ge. lia.
Qed.

Section OnePass.
Variables (ld : t F) (c : call F) (W : nat).
Hypothesis HW : W = N.to_nat (getSphWidth ld).
Hypothesis Hwidth : forall phi theta,
  length (sph_eval (m_lmax ld) phi theta (m_negative_m ld)) = W.

Lemma bond_loop_same i r_i rot rest : forall bond count buf,
  (rest <> [] -> (bond + N.of_nat (length rest)) * getSphWidth ld <= UINT_BOUND) ->
  (forall k b q,
     take (N.to_nat (nNeigh c - count)) (Spec.bonds_of i rest) !! k = Some b ->
     (q < W)%nat ->
     cell buf ((N.to_nat bond + k) * W + q) = coefficients ld c rot r_i b.2 !! q) ->
  bond_loop ld c i r_i rot rest bond count buf = (Done, buf).
Proof using HW Hwidth.
  induction rest as [|[ref j] rest IH]; intros bond count buf Hwrap Hcells;
    cbn [bond_loop Spec.bonds_of] in *; [done|].
  destruct (N.eqb_spec ref i) as [->|Hne]; cbn [andb]; [|done].
  destruct (N.ltb_spec count (nNeigh c)) as [Hcount|Hcount]; [|done].
  replace (N.to_nat (nNeigh c - count))
    with (S (N.to_nat (nNeigh c - (count + 1)))) in Hcells by lia.
  cbn [take] in Hcells. specialize (Hwrap ltac:(done)). cbn [length] in Hwrap.
  assert (Hoff : N.to_nat (wrap32 (bond * getSphWidth ld)) = (N.to_nat bond * W)%nat).
  { rewrite wrap32_small; [lia|].
    destruct (decide (getSphWidth ld = 0)) as [->|]; [by rewrite N.mul_0_r|].
    unfold UINT_BOUND in *. nia. }
  pose proof (Hcells 0%nat (i, j)) as Hfirst. unfold coefficients in Hfirst.
  cbn [snd] in Hfirst.
  destruct (bond_angles rot _) as [theta phi].
  rewrite copy_to_same.
  - apply IH; [intros _; nia|]. intros k b q Hb Hq.
    replace ((N.to_nat (bond + 1) + k) * W + q)%nat
      with ((N.to_nat bond + S k) * W + q)%nat by lia.
    by apply Hcells.
  - intros q Hq. rewrite Hwidth in Hq. rewrite Hoff, <- Hfirst by done.
    f_equal. lia.
Qed.

Hypothesis Hnowrap : getNumBonds (nlist c) * getSphWidth ld <= UINT_BOUND.

Lemma particle_loop_same n : forall i0 buf,
  (forall i, i0 <= i < i0 + N.of_nat n ->
     exists rot, frame c i (find_first_index (nlist c) i) (r_ref c i) = inr rot
       /\ forall k b q, visited c i !! k = Some b -> (q < W)%nat ->
            cell buf ((N.to_nat (find_first_index (nlist c) i) + k) * W + q)
            = coefficients ld c rot (r_ref c i) b.2 !! q) ->
  particle_loop ld c n i0 buf = (Done, buf).
Proof using HW Hwidth Hnowrap.
  induction n as [|n IH]; intros i0 buf Hcells; cbn [particle_loop]; [done|].
  destruct (Hcells i0 ltac:(lia)) as (rot & Hrot & Hslots).
  unfold particle. rewrite Hrot. rewrite bond_loop_same.
  - apply IH. intros i Hi. apply Hcells. lia.
  - intros Hne. by rewrite drop_bonds_bound.
  - by rewrite N.sub_0_r.
Qed.

End OnePass.

(** X13.  A call that ended normally can be repeated with the same
    arguments at no cost: the second call ends normally, allocates nothing
    and leaves the engine, buffer included, exactly as the first call left
    it (the evaluator yielding [getSphWidth()] coefficients, the bond count
    below 2^32 and [numBonds * sphWidth] within the range of an
    [unsigned int]). *)
Theorem compute_again (ld ld' : t F) (c : call F) :
  compute ld c = (Done, ld') ->
  (forall phi theta,
     length (sph_eval (m_lmax ld) phi theta (m_negative_m ld))
     = N.to_nat (getSphWidth ld)) ->
  getNumBonds (nlist c) < UINT_BOUND ->
  getNumBonds (nlist c) * getSphWidth ld <= UINT_BOUND ->
  compute ld' c = (Done, ld').
Proof.
  intros Hrun Hwidth Hbonds Hnowrap.
  unfold compute in Hrun |- *. destruct (validate _ _ _); [|done].
  set (ld1 := reallocate ld (getNumBonds (nlist c))) in *.
  assert (Hl1 : m_lmax ld1 = m_lmax ld) by (unfold ld1, reallocate; by destruct (_ <? _)).
  assert (Hn1 : m_negative_m ld1 = m_negative_m ld)
    by (unfold ld1, reallocate; by destruct (_ <? _)).
  assert (Hw1 : getSphWidth ld1 = getSphWidth ld) by by apply getSphWidth_same_config.
  destruct (particle_loop ld1 c _ _ _) as [[|e] buf] eqn:Hloop; [|done].
  injection Hrun as <-.
  destruct (particle_loop_cells ld1 c (N.to_nat (getSphWidth ld))) with
    (n := N.to_nat (Nref c)) (i0 := 0) (buf := m_sphArray ld1) (buf' := buf)
    as [Hin _]; [by rewrite Hw1|by rewrite Hl1, Hn1|by rewrite Hw1|done|].
  set (ld2 := Build (m_lmax ld1) (m_negative_m ld1) (Nref c)
                (wrap32 (getNumBonds (nlist c))) buf (allocations ld1)).
  assert (Hre : reallocate ld2 (getNumBonds (nlist c)) = ld2).
  { unfold reallocate. cbn. rewrite wrap32_small by done.
    by rewrite N.ltb_irrefl. }
  rewrite Hre.
  assert (Hw2 : getSphWidth ld2 = getSphWidth ld) by by apply getSphWidth_same_config.
  rewrite (particle_loop_same ld2 c (N.to_nat (getSphWidth ld)));
    [done|by rewrite Hw2|by cbn; rewrite Hl1, Hn1|by rewrite Hw2|].
  intros i Hi. destruct (Hin i Hi) as (rot & Hrot & Hcells).
  exists rot. split; [done|]. intros k b q Hb Hq.
  change (m_sphArray ld2) with buf. rewrite (Hcells k b q) by done.
  by rewrite (coefficients_same_config ld1 ld2).
Qed.

End ComputeRepeat.

(** ** LocalDescriptors: the width with negative orders *)

Section FullWidth.
Import LocalDescriptors.
Context {F : Type} `{FloatOps F} `{External F}.

(** X14.  With [negative_m] set, [fsph::sphCount d] being the number of
    index pairs with [m >= 0] through degree [d] and [(lmax + 1)^2] fitting
    an [unsigned int], [getSphWidth()] is [(lmax + 1)^2], the number of all
    index pairs [(l, m)] with [-l <= m <= l] through degree [lmax]. *)
Theorem getSphWidth_all_orders (ld : t F) :
  m_negative_m ld = true ->
  (forall d, d <= m_lmax ld ->
     sphCount d = N.of_nat (length (Spec.indices_nonneg (N.to_nat d)))) ->
  (m_lmax ld + 1) * (m_lmax ld + 1) < UINT_BOUND ->
  getSphWidth ld = (m_lmax ld + 1) * (m_lmax ld + 1)
  /\ getSphWidth ld
     = N.of_nat (length (Spec.indices_nonneg (N.to_nat (m_lmax ld))
                         ++ Spec.indices_neg (N.to_nat (m_lmax ld)))).
Proof.
  intros Hneg Hcount Hfit. set (lmax := m_lmax ld) in *.
  pose proof (length_indices_nonneg_double (N.to_nat lmax)) as Hd1.
  pose proof (length_indices_neg_double (N.to_nat lmax)) as Hd2.
  assert (Hw : getSphWidth ld = (lmax + 1) * (lmax + 1)).
  { unfold getSphWidth. fold lmax. rewrite Hneg, (Hcount lmax) by lia.
    destruct (N.ltb_spec 0 lmax) as [Hpos|Hzero]; cbn [andb].
    - rewrite (Hcount (lmax - 1)) by lia.
      pose proof (length_indices_nonneg_double (N.to_nat (lmax - 1))) as Hd3.
      rewrite wrap32_small; unfold UINT_BOUND in *; nia.
    - rewrite wrap32_small; unfold UINT_BOUND in *; nia. }
  split; [done|]. rewrite Hw, List.length_app. nia.
Qed.

End FullWidth.

(** ** The further properties on concrete inputs *)

Section MoreRuns.
Import LocalDescriptors IntegerModel Pass.

Lemma reachable_invariant_witness :
  let ld : t Z := after (construct 1 false) (call_on (star 2) 1 None Global) in
  reachable 1 false ld
  /\ getLMax ld = 1
  /\ getSphWidth ld = getSphWidth (F:=Z) (construct 1 false)
  /\ getNSphs ld * getSphWidth ld <= capacity ld.
Proof.
  intros ld.
  assert (Hr : reachable 1 false ld)
    by exact (reachable_compute 1 false _ _ (reachable_construct 1 false)).
  split; [exact Hr|]. exact (reachable_invariant 1 false ld Hr).
Defined.

Lemma compute_ends_normally_witness :
  let ld : t Z := after (construct 1 false) (call_on (star 2) 1 None Global) in
  let c := call_on (star 5) 1 None LocalNeighborhood in
  reachable 1 false ld
  /\ validate (nlist c) (Nref c) (Np c) = true
  /\ frame_defined c
  /\ (forall phi theta : Z,
        length (sph_eval 1 phi theta false) = N.to_nat (getSphWidth ld))
  /\ exists ld', compute ld c = (Done, ld')
       /\ getNP ld' = Nref c /\ getNSphs ld' = wrap32 (getNumBonds (nlist c)).
Proof.
  intros ld c.
  assert (H1 : reachable 1 false ld)
    by exact (reachable_compute 1 false _ _ (reachable_construct 1 false)).
  assert (H2 : validate (nlist c) (Nref c) (Np c) = true) by reflexivity.
  assert (H3 : frame_defined c) by (left; reflexivity).
  assert (H4 : forall phi theta : Z,
            length (sph_eval 1 phi theta false) = N.to_nat (getSphWidth ld))
    by (intros phi theta; reflexivity).
  split_and!; [exact H1|exact H2|exact H3|exact H4|].
  exact (compute_ends_normally 1 false ld c H1 H2 H3 H4).
Defined.

Lemma compute_output_witness :
  let ld : t Z := construct 1 false in
  let c := call_on (star 2) 1 None Global in
  let ld' := after ld c in
  compute ld c = (Done, ld')
  /\ (forall phi theta : Z,
        length (sph_eval (m_lmax ld) phi theta (m_negative_m ld))
        = N.to_nat (getSphWidth ld))
  /\ getNumBonds (nlist c) * getSphWidth ld <= UINT_BOUND
  /\ 0 < Nref c /\ visited c 0 !! 1%nat = Some (0, 1) /\ (2 < N.to_nat (getSphWidth ld))%nat
  /\ getNeighbors (nlist c) !! (N.to_nat (find_first_index (nlist c) 0) + 1)%nat = Some (0, 1)
  /\ (0, 1).1 = 0
  /\ exists rot, frame c 0 (find_first_index (nlist c) 0) (r_ref c 0) = inr rot
       /\ cell (getSph ld')
            ((N.to_nat (find_first_index (nlist c) 0) + 1) * N.to_nat (getSphWidth ld) + 2)
          = coefficients ld c rot (r_ref c 0) (0, 1).2 !! 2%nat.
Proof.
  intros ld c ld'.
  assert (H1 : compute ld c = (Done, ld')) by (vm_compute; reflexivity).
  assert (H2 : forall phi theta : Z,
            length (sph_eval (m_lmax ld) phi theta (m_negative_m ld))
            = N.to_nat (getSphWidth ld)) by (intros phi theta; reflexivity).
  assert (H3 : getNumBonds (nlist c) * getSphWidth ld <= UINT_BOUND) by discriminate.
  assert (H4 : 0 < Nref c) by reflexivity.
  assert (H5 : visited c 0 !! 1%nat = Some (0, 1)) by reflexivity.
  assert (H6 : (2 < N.to_nat (getSphWidth ld))%nat) by (vm_compute; lia).
  split_and!; [exact H1|exact H2|exact H3|exact H4|exact H5|exact H6|..];
    apply (compute_output ld ld' c H1 H2 H3 0 1%nat (0, 1) 2%nat H4 H5 H6).
Defined.

Lemma compute_untouched_witness :
  let ld : t Z := construct 1 false in
  let c := call_on (star 13) 1 None Global in
  let ld' := after ld c in
  compute ld c = (Done, ld')
  /\ (forall phi theta : Z,
        length (sph_eval (m_lmax ld) phi theta (m_negative_m ld))
        = N.to_nat (getSphWidth ld))
  /\ getNumBonds (nlist c) * getSphWidth ld <= UINT_BOUND
  /\ ~ written c (N.to_nat (getSphWidth ld)) 37
  /\ (getNSphs ld < getNumBonds (nlist c) ->
        cell (getSph ld') 37
        = replicate (N.to_nat (getNumBonds (nlist c) * getSphWidth ld)) complex_zero
          !! 37%nat)
  /\ (getNumBonds (nlist c) <= getNSphs ld -> cell (getSph ld') 37 = cell (getSph ld) 37).
Proof.
  intros ld c ld'.
  assert (H1 : compute ld c = (Done, ld')) by (vm_compute; reflexivity).
  assert (H2 : forall phi theta : Z,
            length (sph_eval (m_lmax ld) phi theta (m_negative_m ld))
            = N.to_nat (getSphWidth ld)) by (intros phi theta; reflexivity).
  assert (H3 : getNumBonds (nlist c) * getSphWidth ld <= UINT_BOUND) by discriminate.
  assert (H4 : ~ written c (N.to_nat (getSphWidth ld)) 37).
  { intros (i & Hi & Hrange). assert (i = 0) as -> by (cbn in Hi; lia).
    vm_compute in Hrange. destruct Hrange as [_ Hhi]. lia. }
  split_and!; [exact H1|exact H2|exact H3|exact H4|..];
    apply (compute_untouched ld ld' c 37 H1 H2 H3 H4).
Defined.

Lemma compute_empty_list_witness :
  let ld : t Z := after (construct 1 false) (call_on (star 2) 1 None Global) in
  let c := call_on [] 3 None LocalNeighborhood in
  getNeighbors (nlist c) = []
  /\ validate (nlist c) (Nref c) (Np c) = true
  /\ frame_defined c
  /\ compute ld c
     = (Done, Build (m_lmax ld) (m_negative_m ld) (Nref c) 0 (m_sphArray ld) (allocations ld)).
Proof.
  intros ld c.
  assert (H3 : frame_defined c) by (left; reflexivity).
  split_and!; [reflexivity|reflexivity|exact H3|].
  exact (compute_empty_list ld c eq_refl eq_refl H3).
Defined.

Lemma compute_reads_witness :
  let ld : t Z := construct 1 false in
  let c := call_on (star 2) 1 (Some (fun _ => Quat 1%Z (Vec3 0%Z 0%Z 0%Z))) ParticleLocal in
  let r_ref' := fun k : N => if k =? 0 then Vec3 0%Z 0%Z 0%Z else Vec3 7%Z 7%Z 7%Z in
  let r' := fun k : N => if k =? 1 then Vec3 3%Z 0%Z 4%Z else Vec3 9%Z 9%Z 9%Z in
  let q' := Some (fun k : N => Quat (Z.of_N k + 1)%Z (Vec3 0%Z 0%Z 0%Z)) in
  (forall i, i < Nref c -> r_ref' i = r_ref c i)
  /\ Forall (fun b : N * N => r' b.2 = r c b.2) (getNeighbors (nlist c))
  /\ same_orientations (Nref c) (q_ref c) q'
  /\ compute ld (with_arrays c r_ref' r' q') = compute ld c.
Proof.
  intros ld c r_ref' r' q'.
  assert (H1 : forall i, i < Nref c -> r_ref' i = r_ref c i).
  { intros i Hi. assert (i = 0) as -> by (cbn in Hi; lia). reflexivity. }
  assert (H2 : Forall (fun b : N * N => r' b.2 = r c b.2) (getNeighbors (nlist c)))
    by (repeat constructor).
  assert (H3 : same_orientations (Nref c) (q_ref c) q').
  { intros i Hi. assert (i = 0) as -> by (cbn in Hi; lia). reflexivity. }
  split_and!; [exact H1|exact H2|exact H3|].
  exact (compute_reads ld c r_ref' r' q' H1 H2 H3).
Defined.

Lemma neighborhood_tensor_no_bonds_witness :
  let c := call_on (star 2) 2 None LocalNeighborhood in
  Spec.frame_bonds (nlist c) (nNeigh c) 1 2 = []
  /\ neighborhood_tensor c 1 2 (Vec3 0%Z 0%Z 0%Z) = Spec.tensor_of (fun _ _ => f0)
  /\ (orientation c = LocalNeighborhood ->
      frame c 1 2 (Vec3 0%Z 0%Z 0%Z)
      = inr (frame_of_eigenvectors
               (snd (diagonalize33SymmetricMatrix (Spec.tensor_of (fun _ _ => f0)))))).
Proof.
  intros c. split; [reflexivity|].
  exact (neighborhood_tensor_no_bonds c 1 2 (Vec3 0%Z 0%Z 0%Z) eq_refl).
Defined.

Lemma compute_again_witness :
  let ld : t Z := construct 1 false in
  let c := call_on (star 5) 1 None LocalNeighborhood in
  let ld' := after ld c in
  compute ld c = (Done, ld')
  /\ (forall phi theta : Z,
        length (sph_eval (m_lmax ld) phi theta (m_negative_m ld))
        = N.to_nat (getSphWidth ld))
  /\ getNumBonds (nlist c) < UINT_BOUND
  /\ getNumBonds (nlist c) * getSphWidth ld <= UINT_BOUND
  /\ compute ld' c = (Done, ld').
Proof.
  intros ld c ld'.
  assert (H1 : compute ld c = (Done, ld')) by (vm_compute; reflexivity).
  assert (H2 : forall phi theta : Z,
            length (sph_eval (m_lmax ld) phi theta (m_negative_m ld))
            = N.to_nat (getSphWidth ld)) by (intros phi theta; reflexivity).
  assert (H3 : getNumBonds (nlist c) < UINT_BOUND) by reflexivity.
  assert (H4 : getNumBonds (nlist c) * getSphWidth ld <= UINT_BOUND) by discriminate.
  split_and!; [exact H1|exact H2|exact H3|exact H4|].
  exact (compute_again ld ld' c H1 H2 H3 H4).
Defined.

Lemma getSphWidth_all_orders_witness :
  let ld : t Z := construct 3 true in
  m_negative_m ld = true
  /\ (forall d, d <= m_lmax ld ->
        sphCount d = N.of_nat (length (Spec.indices_nonneg (N.to_nat d))))
  /\ (m_lmax ld + 1) * (m_lmax ld + 1) < UINT_BOUND
  /\ getSphWidth ld = (m_lmax ld + 1) * (m_lmax ld + 1)
  /\ getSphWidth ld
     = N.of_nat (length (Spec.indices_nonneg (N.to_nat (m_lmax ld))
                         ++ Spec.indices_neg (N.to_nat (m_lmax ld)))).
Proof.
  intros ld.
  assert (H2 : forall d, d <= m_lmax ld ->
            sphCount d = N.of_nat (length (Spec.indices_nonneg (N.to_nat d)))).
  { intros d Hd. cbn in Hd.
    assert (d = 0 \/ d = 1 \/ d = 2 \/ d = 3) as [->|[->|[->| ->]]] by lia;
      reflexivity. }
  assert (H3 : (m_lmax ld + 1) * (m_lmax ld + 1) < UINT_BOUND) by reflexivity.
  split_and!; [reflexivity|exact H2|exact H3|..];
    apply (getSphWidth_all_orders ld eq_refl H2 H3).
Defined.

End MoreRuns.

(** A bond of length zero in the instance with a not-a-number: [z / 0] is
    not a number, neither is its [acos], and the angle handed on is [M_PI]. *)
Lemma polar_angle_guard_witness :
  let rot : vec3 (option Z) * vec3 (option Z) * vec3 (option Z) :=
    (Vec3 f1 f0 f0, Vec3 f0 f1 f0, Vec3 f0 f0 f1) in
  let rij : vec3 (option Z) := Vec3 f0 f0 f0 in
  fisnan (f0 : option Z) = false /\ fisnan (f_pi : option Z) = false
  /\ fisnan (facos (fdiv (dot rot.2 rij) (fsqrt (dot rij rij)))) = true
  /\ (LocalDescriptors.bond_angles rot rij).2 = f_pi
  /\ fisnan (LocalDescriptors.bond_angles rot rij).2 = false.
Proof.
  intros rot rij. split_and!; [reflexivity|reflexivity|reflexivity|reflexivity|].
  exact (proj1 (polar_angle_guard rot rij eq_refl eq_refl)).
Defined.

(** ** LocalDescriptors: the order of the iterations *)

Section Schedule.
Import LocalDescriptors Pass.
Context {F : Type} `{FloatOps F} `{External F}.

(** The sequential loop is the pass in index order. *)
Lemma particle_loop_index_order ld c n : forall i0 buf,
  particle_loop ld c n i0 buf = particle_pass ld c (index_order i0 n) buf.
Proof.
  unfold index_order. induction n as [|n IH]; intros i0 buf; [done|].
  cbn [particle_loop seq fmap list_fmap particle_pass].
  rewrite N2Nat.id. destruct (particle ld c i0 buf) as [[|e] buf']; [|done].
  rewrite IH. by replace (N.to_nat (i0 + 1)) with (S (N.to_nat i0)) by lia.
Qed.

Lemma compute_index_order (ld : t F) (c : call F) :
  compute ld c = compute_scheduled ld c (index_order 0 (N.to_nat (Nref c))).
Proof. unfold compute, compute_scheduled. by rewrite particle_loop_index_order. Qed.

(** *** Success depends on the shape of the buffer alone *)

Lemma copy_to_shape (buf buf2 : option (list (complex F))) off vals :
  shape buf = shape buf2 ->
  shape <$> copy_to buf off vals = shape <$> copy_to buf2 off vals
  /\ forall buf', copy_to buf off vals = Some buf' -> shape buf' = shape buf.
Proof.
  unfold copy_to, shape. intros Hshape. destruct vals as [|v vals].
  { split; [cbn; by rewrite Hshape|by intros ? [= <-]]. }
  destruct buf as [cells|], buf2 as [cells2|]; cbn in Hshape; simplify_eq; [|done].
  rewrite Hshape. split.
  - case_decide; [|done]. cbn [fmap option_fmap option_map].
    by rewrite !length_inserts, Hshape.
  - intros buf'. case_decide; [|done]. intros [= <-].
    cbn [fmap option_fmap option_map]. by rewrite length_insert, length_inserts.
Qed.

Lemma bond_loop_shape ld c i r_i rot rest : forall bond count buf buf2,
  shape buf = shape buf2 ->
  (bond_loop ld c i r_i rot rest bond count buf).1
  = (bond_loop ld c i r_i rot rest bond count buf2).1
  /\ shape (bond_loop ld c i r_i rot rest bond count buf).2 = shape buf.
Proof.
  induction rest as [|[ref j] rest IH]; intros bond count buf buf2 Hshape; cbn; [done|].
  destruct ((ref =? i) && (count <? nNeigh c)); [|done].
  destruct (bond_angles rot _) as [theta phi].
  destruct (copy_to_shape buf buf2 (wrap32 (bond * getSphWidth ld))
              (sph_eval (m_lmax ld) phi theta (m_negative_m ld)) Hshape)
    as [Hsame Hkeep].
  destruct (copy_to_shape buf2 buf (wrap32 (bond * getSphWidth ld))
              (sph_eval (m_lmax ld) phi theta (m_negative_m ld)) (eq_sym Hshape))
    as [_ Hkeep2].
  destruct (copy_to buf _ _) as [buf'|], (copy_to buf2 _ _) as [buf2'|];
    cbn in Hsame; simplify_eq; [|done].
  specialize (Hkeep _ eq_refl). specialize (Hkeep2 _ eq_refl).
  destruct (IH (bond + 1) (count + 1) buf' buf2') as [-> ->]; [congruence|done].
Qed.

Lemma particle_shape ld c i buf buf2 :
  shape buf = shape buf2 ->
  (particle ld c i buf).1 = (particle ld c i buf2).1
  /\ shape (particle ld c i buf).2 = shape buf.
Proof.
  intros Hshape. unfold particle. destruct (frame c i _ _) as [e|rot]; [done|].
  by apply bond_loop_shape.
Qed.

Lemma particle_pass_done ld c order : forall buf,
  (particle_pass ld c order buf).1 = Done
  <-> Forall (fun i => (particle ld c i buf).1 = Done) order.
Proof.
  induction order as [|i order IH]; intros buf; cbn [particle_pass]; [done|].
  rewrite Forall_cons.
  destruct (particle_shape ld c i buf buf eq_refl) as [_ Hkeep].
  destruct (particle ld c i buf) as [[|e] buf'] eqn:Hfirst; cbn in *.
  - rewrite IH. split.
    + intros Hall. split; [done|]. eapply Forall_impl; [exact Hall|].
      intros k Hk. cbn in Hk. by rewrite <- (proj1 (particle_shape ld c k buf' buf Hkeep)).
    + intros [_ Hall]. eapply Forall_impl; [exact Hall|].
      intros k Hk. cbn in Hk. by rewrite (proj1 (particle_shape ld c k buf' buf Hkeep)).
  - split; [done|]. by intros [? _].
Qed.

Lemma particle_pass_shape ld c order : forall buf,
  shape (particle_pass ld c order buf).2 = shape buf.
Proof.
  induction order as [|i order IH]; intros buf; cbn [particle_pass]; [done|].
  destruct (particle_shape ld c i buf buf eq_refl) as [_ Hkeep].
  destruct (particle ld c i buf) as [[|e] buf']; cbn in *; [|done].
  by rewrite IH.
Qed.

Lemma shape_cells_eq (buf buf2 : option (list (complex F))) :
  shape buf = shape buf2 -> (forall p, cell buf p = cell buf2 p) -> buf = buf2.
Proof.
  unfold shape, cell. destruct buf as [l|], buf2 as [l2|]; cbn; try done.
  intros _ Hcells. f_equal. by apply list_eq.
Qed.

(** *** The cells after a pass in any order *)

Section OnePass.
Variables (ld : t F) (c : call F) (W : nat).
Hypothesis HW : W = N.to_nat (getSphWidth ld).
Hypothesis Hwidth : forall phi theta,
  length (sph_eval (m_lmax ld) phi theta (m_negative_m ld)) = W.
Hypothesis Hnowrap : getNumBonds (nlist c) * getSphWidth ld <= UINT_BOUND.

Lemma particle_pass_cells order : NoDup order -> forall buf buf',
  particle_pass ld c order buf = (Done, buf') ->
  (forall i, i ∈ order ->
     exists rot, frame c i (find_first_index (nlist c) i) (r_ref c i) = inr rot
       /\ forall k b q, visited c i !! k = Some b -> (q < W)%nat ->
            cell buf' ((N.to_nat (find_first_index (nlist c) i) + k) * W + q)
            = coefficients ld c rot (r_ref c i) b.2 !! q)
  /\ (forall p,
        (forall i, i ∈ order ->
           ~ (N.to_nat (find_first_index (nlist c) i) * W <= p
              < (N.to_nat (find_first_index (nlist c) i) + length (visited c i)) * W)%nat) ->
        cell buf' p = cell buf p).
Proof using HW Hwidth Hnowrap.
  induction 1 as [|i0 order Hfresh Hnodup IH]; intros buf buf' Hrun;
    cbn [particle_pass] in Hrun.
  { injection Hrun as <-. split; [by intros i ?%elem_of_nil|done]. }
  destruct (particle ld c i0 buf) as [[|e] buf1] eqn:Hfirst; [|done].
  destruct (particle_cells ld c W HW Hwidth Hnowrap _ _ _ Hfirst)
    as (rot0 & Hrot0 & Hin0 & Hout0).
  destruct (IH _ _ Hrun) as [IH1 IH2]. split.
  - intros i [->|Hi]%elem_of_cons; [|by apply IH1].
    exists rot0. split; [done|]. intros k b q Hb Hq.
    rewrite IH2; [by apply Hin0|].
    intros i Hi' Hrange.
    eapply slot_index in Hrange as [Hlo Hhi]; [|done..].
    destruct (lookup_lt_is_Some_2 (visited c i)
                (N.to_nat (find_first_index (nlist c) i0) + k
                 - N.to_nat (find_first_index (nlist c) i))%nat) as [b' Hb']; [lia|].
    apply visited_lookup in Hb as [Hb Href], Hb' as [Hb' Href'].
    replace (N.to_nat (find_first_index (nlist c) i)
             + (N.to_nat (find_first_index (nlist c) i0) + k
                - N.to_nat (find_first_index (nlist c) i)))%nat
      with (N.to_nat (find_first_index (nlist c) i0) + k)%nat in Hb' by lia.
    assert (b' = b) by congruence. subst b'.
    apply Hfresh. congruence.
  - intros p Hp. rewrite IH2 by (intros i Hi; apply Hp; by right).
    apply Hout0. specialize (Hp i0 ltac:(by left)). lia.
Qed.

(** Two passes over the same particles, in whatever order, that both end
    normally leave the same buffer. *)
Lemma particle_pass_permutation order order' buf bufA bufB :
  NoDup order -> order ≡ₚ order' ->
  particle_pass ld c order buf = (Done, bufA) ->
  particle_pass ld c order' buf = (Done, bufB) ->
  bufA = bufB.
Proof using HW Hwidth Hnowrap.
  intros Hnodup Hperm HA HB.
  assert (Hnodup' : NoDup order') by by rewrite <- Hperm.
  destruct (particle_pass_cells order Hnodup _ _ HA) as [HinA HoutA].
  destruct (particle_pass_cells order' Hnodup' _ _ HB) as [HinB HoutB].
  apply shape_cells_eq.
  { pose proof (particle_pass_shape ld c order buf) as HsA.
    pose proof (particle_pass_shape ld c order' buf) as HsB.
    rewrite HA in HsA. rewrite HB in HsB. cbn [snd] in HsA, HsB.
    by rewrite HsA, HsB. }
  intros p.
  destruct (decide (Exists (fun i =>
              N.to_nat (find_first_index (nlist c) i) * W <= p
              < (N.to_nat (find_first_index (nlist c) i) + length (visited c i)) * W)%nat
              order)) as [Hex|Hno].
  - apply Exists_exists in Hex as (i & Hi & Hlo & Hhi).
    assert (0 < W)%nat as HWpos by (destruct W; [lia|lia]).
    set (f := N.to_nat (find_first_index (nlist c) i)) in *.
    assert (Hk : (f <= p / W < f + length (visited c i))%nat).
    { split; [by apply Nat.div_le_lower_bound; lia|].
      apply Nat.Div0.div_lt_upper_bound. lia. }
    destruct (lookup_lt_is_Some_2 (visited c i) (p / W - f)%nat) as [b Hb]; [lia|].
    assert (Hp : p = ((f + (p / W - f)) * W + p mod W)%nat).
    { replace (f + (p / W - f))%nat with (p / W)%nat by lia.
      rewrite (Nat.div_mod_eq p W) at 1. lia. }
    assert (Hq : (p mod W < W)%nat) by (apply Nat.mod_upper_bound; lia).
    destruct (HinA i Hi) as (rotA & HrotA & HcellA).
    destruct (HinB i ltac:(by rewrite <- Hperm)) as (rotB & HrotB & HcellB).
    assert (rotB = rotA) as -> by congruence.
    rewrite Hp. unfold f. by rewrite (HcellA _ b), (HcellB _ b).
  - rewrite HoutA, HoutB; [done| |].
    + intros i Hi Hrange. apply Hno, Exists_exists. exists i.
      split; [by rewrite Hperm|done].
    + intros i Hi Hrange. apply Hno, Exists_exists. by exists i.
Qed.

End OnePass.

(** X15.  The order in which [parallel_for] runs the iterations does not
    show: when [compute], run in index order, ends normally, the same call
    with the reference particles taken in any other order ends normally too
    and leaves the very same engine (the evaluator yielding [getSphWidth()]
    coefficients and [numBonds * sphWidth] within the range of an
    [unsigned int]). *)
Theorem compute_any_order (ld ld' : t F) (c : call F) (order : list N) :
  compute ld c = (Done, ld') ->
  (forall phi theta,
     length (sph_eval (m_lmax ld) phi theta (m_negative_m ld))
     = N.to_nat (getSphWidth ld)) ->
  getNumBonds (nlist c) * getSphWidth ld <= UINT_BOUND ->
  order ≡ₚ index_order 0 (N.to_nat (Nref c)) ->
  compute_scheduled ld c order = (Done, ld').
Proof.
  intros Hrun Hwidth Hnowrap Hperm. rewrite compute_index_order in Hrun.
  unfold compute_scheduled in *. destruct (validate _ _ _); [|done].
  set (ld1 := reallocate ld (getNumBonds (nlist c))) in *.
  assert (Hl1 : m_lmax ld1 = m_lmax ld) by (unfold ld1, reallocate; by destruct (_ <? _)).
  assert (Hn1 : m_negative_m ld1 = m_negative_m ld)
    by (unfold ld1, reallocate; by destruct (_ <? _)).
  assert (Hw1 : getSphWidth ld1 = getSphWidth ld) by by apply getSphWidth_same_config.
  assert (Hnodup : NoDup (index_order 0 (N.to_nat (Nref c)))).
  { unfold index_order. apply NoDup_fmap_2; [apply _|apply NoDup_seq]. }
  destruct (particle_pass ld1 c (index_order _ _) _) as [[|e] bufA] eqn:HA; [|done].
  injection Hrun as <-.
  assert (Hdone : (particle_pass ld1 c order (m_sphArray ld1)).1 = Done).
  { apply particle_pass_done. rewrite Hperm. apply particle_pass_done. by rewrite HA. }
  destruct (particle_pass ld1 c order _) as [o bufB] eqn:HB. cbn in Hdone. subst o.
  by rewrite (particle_pass_permutation ld1 c (N.to_nat (getSphWidth ld))
                ltac:(by rewrite Hw1) ltac:(by rewrite Hl1, Hn1) ltac:(by rewrite Hw1)
                _ _ _ _ _ Hnodup (symmetry Hperm) HA HB).
Qed.

End Schedule.

Lemma compute_any_order_witness :
  let ld : LocalDescriptors.t Z := LocalDescriptors.construct 1 false in
  let c := IntegerModel.call_on [(0, 1); (0, 1); (1, 0); (2, 1)] 3 None
             LocalDescriptors.LocalNeighborhood in
  let ld' := IntegerModel.after ld c in
  LocalDescriptors.compute ld c = (LocalDescriptors.Done, ld')
  /\ (forall phi theta : Z,
        length (LocalDescriptors.sph_eval (LocalDescriptors.m_lmax ld) phi theta
                  (LocalDescriptors.m_negative_m ld))
        = N.to_nat (LocalDescriptors.getSphWidth ld))
  /\ LocalDescriptors.getNumBonds (LocalDescriptors.nlist c)
     * LocalDescriptors.getSphWidth ld <= UINT_BOUND
  /\ [2; 0; 1] ≡ₚ Pass.index_order 0 (N.to_nat (LocalDescriptors.Nref c))
  /\ Pass.compute_scheduled ld c [2; 0; 1] = (LocalDescriptors.Done, ld').
Proof.
  intros ld c ld'.
  assert (H1 : LocalDescriptors.compute ld c = (LocalDescriptors.Done, ld'))
    by (vm_compute; reflexivity).
  assert (H2 : forall phi theta : Z,
            length (LocalDescriptors.sph_eval (LocalDescriptors.m_lmax ld) phi theta
                      (LocalDescriptors.m_negative_m ld))
            = N.to_nat (LocalDescriptors.getSphWidth ld))
    by (intros phi theta; reflexivity).
  assert (H3 : LocalDescriptors.getNumBonds (LocalDescriptors.nlist c)
               * LocalDescriptors.getSphWidth ld <= UINT_BOUND) by discriminate.
  assert (H4 : [2; 0; 1] ≡ₚ Pass.index_order 0 (N.to_nat (LocalDescriptors.Nref c))).
  { change (Pass.index_order 0 (N.to_nat (LocalDescriptors.Nref c))) with [0; 1; 2].
    etransitivity; [apply Permutation_swap|]. apply perm_skip, Permutation_swap. }
  split_and!; [exact H1|exact H2|exact H3|exact H4|].
  exact (compute_any_order ld ld' c [2; 0; 1] H1 H2 H3 H4).
Defined.

(** ** LocalDescriptors: the bonds a pass visits *)

Section Visited.
Import LocalDescriptors Pass.
Context {F : Type} `{FloatOps F} `{External F}.

Lemma filter_no_bond (i : N) (l : list (N * N)) :
  Forall (fun b : N * N => b.1 <> i) l -> filter (fun b : N * N => b.1 = i) l = [].
Proof.
  induction 1 as [|b l Hb _ IH]; [done|]. by rewrite filter_cons_False.
Qed.

(** In a list sorted by reference index, from a point where no reference
    index is below [i], the bonds of [i] are a prefix. *)
Lemma bonds_of_filter (i : N) (l : list (N * N)) :
  StronglySorted (fun a b : N * N => a.1 <= b.1) l ->
  Forall (fun b : N * N => i <= b.1) l ->
  Spec.bonds_of i l = filter (fun b : N * N => b.1 = i) l.
Proof.
  induction l as [|[ref j] l IH]; intros Hsorted Hge; cbn [Spec.bonds_of]; [done|].
  apply StronglySorted_inv in Hsorted as [Hsorted Hhead].
  apply Forall_cons in Hge as [Hi Hge]. cbn in Hi.
  destruct (N.eqb_spec ref i) as [->|Hne].
  - rewrite filter_cons_True by done. f_equal. by apply IH.
  - rewrite filter_cons_False by done. symmetry. apply filter_no_bond.
    eapply Forall_impl; [exact Hhead|]. intros b Hb. cbn in Hb. lia.
Qed.

(** When the neighbour list is sorted by reference index and the offset
    given for [i] is that of its first bond (any offset when [i] has no
    bond), the run of bonds of [i] from that offset, cut after [nNeigh], is
    made of all the bonds of [i] in the list. *)
Lemma visited_filter (c : call F) (i : N) :
  StronglySorted (fun a b : N * N => a.1 <= b.1) (getNeighbors (nlist c)) ->
  (filter (fun b : N * N => b.1 = i) (getNeighbors (nlist c)) = []
   \/ (Forall (fun b : N * N => b.1 <> i)
         (take (N.to_nat (find_first_index (nlist c) i)) (getNeighbors (nlist c)))
       /\ exists j, getNeighbors (nlist c) !! N.to_nat (find_first_index (nlist c) i)
                    = Some (i, j))) ->
  visited c i
  = take (N.to_nat (nNeigh c)) (filter (fun b : N * N => b.1 = i) (getNeighbors (nlist c))).
Proof.
  intros Hsorted Hfirst. unfold visited, Spec.frame_bonds. f_equal.
  set (bonds := getNeighbors (nlist c)) in *.
  set (f := N.to_nat (find_first_index (nlist c) i)) in *.
  destruct Hfirst as [Hnone|[Hbefore [j Hat]]].
  - rewrite Hnone. destruct (Spec.bonds_of i (drop f bonds)) as [|b l] eqn:Hrun; [done|].
    exfalso. destruct (bonds_of_lookup i (drop f bonds) 0 b) as [Hb Hi];
      [by rewrite Hrun|].
    rewrite lookup_drop in Hb.
    eapply (filter_nil_not_elem_of _ _ b Hnone); [done|].
    apply list_elem_of_lookup. eauto.
  - rewrite <- (take_drop f bonds) at 2. rewrite filter_app, filter_no_bond by done.
    cbn [app]. rewrite <- (take_drop f bonds) in Hsorted.
    apply StronglySorted_app_1_r in Hsorted.
    apply bonds_of_filter; [done|].
    rewrite <- (Nat.add_0_r f), <- lookup_drop in Hat.
    destruct (drop f bonds) as [|b l]; [done|]. injection Hat as ->.
    apply StronglySorted_inv in Hsorted as [_ Hhead].
    apply Forall_cons. split; [cbn; lia|]. done.
Qed.

End Visited.

(** ** LocalDescriptors: the angles behind the coefficients *)

Section Angles.
Import LocalDescriptors Pass.
Context {F : Type} `{FloatOps F} `{External F}.

(** After a call that ended normally, the slots of the bonds visited for a
    reference particle hold the coefficients computed in its frame. *)
Lemma compute_cells (ld ld' : t F) (c : call F) :
  compute ld c = (Done, ld') ->
  (forall phi theta,
     length (sph_eval (m_lmax ld) phi theta (m_negative_m ld))
     = N.to_nat (getSphWidth ld)) ->
  getNumBonds (nlist c) * getSphWidth ld <= UINT_BOUND ->
  forall i, i < Nref c ->
    exists rot, frame c i (find_first_index (nlist c) i) (r_ref c i) = inr rot
      /\ forall k b q, visited c i !! k = Some b -> (q < N.to_nat (getSphWidth ld))%nat ->
           cell (getSph ld')
             ((N.to_nat (find_first_index (nlist c) i) + k) * N.to_nat (getSphWidth ld) + q)
           = coefficients ld c rot (r_ref c i) b.2 !! q.
Proof.
  intros Hrun Hwidth Hnowrap i Hi.
  unfold compute in Hrun. destruct (validate _ _ _); [|done].
  set (ld1 := reallocate ld (getNumBonds (nlist c))) in *.
  assert (Hl1 : m_lmax ld1 = m_lmax ld) by (unfold ld1, reallocate; by destruct (_ <? _)).
  assert (Hn1 : m_negative_m ld1 = m_negative_m ld)
    by (unfold ld1, reallocate; by destruct (_ <? _)).
  assert (Hw1 : getSphWidth ld1 = getSphWidth ld) by by apply getSphWidth_same_config.
  destruct (particle_loop ld1 c _ _ _) as [[|e] buf] eqn:Hloop; [|done].
  injection Hrun as <-. cbn [getSph m_sphArray].
  destruct (particle_loop_cells ld1 c (N.to_nat (getSphWidth ld))) with
    (n := N.to_nat (Nref c)) (i0 := 0) (buf := m_sphArray ld1) (buf' := buf)
    as [Hin _]; [by rewrite Hw1|by rewrite Hl1, Hn1|by rewrite Hw1|done|].
  destruct (Hin i ltac:(lia)) as (rot & Hrot & Hcells). exists rot. split; [done|].
  intros k b q Hb Hq. rewrite (Hcells k b q) by done.
  by rewrite (coefficients_same_config ld ld1).
Qed.

Lemma coefficients_angles (ld : t F) (c : call F) rot r_i j :
  coefficients ld c rot r_i j
  = sph_eval (m_lmax ld)
      (bond_angles rot (wrap (box c) (vsub (r c j) r_i))).2
      (bond_angles rot (wrap (box c) (vsub (r c j) r_i))).1
      (m_negative_m ld).
Proof. unfold coefficients. by destruct (bond_angles rot _). Qed.



(** C5, amended.  In a call that ends normally, the polar angle [phi]
    behind the coefficients of every visited bond is never one that
    [std::isnan] flags ([std::isnan] rejecting 0 and [M_PI]).  Whenever
    [acos] of the ratio [z / magR] is a not-a-number, as it is when the ratio
    lies outside [-1, 1], [phi] is 0 for [z > 0] and [M_PI] otherwise; in
    every other case, that of a bond along the local z-axis included, [phi]
    is [acos] of the ratio as computed. *)
Theorem polar_angle_clamped (ld ld' : t F) (c : call F) :
  compute ld c = (Done, ld') ->
  (forall phi theta,
     length (sph_eval (m_lmax ld) phi theta (m_negative_m ld))
     = N.to_nat (getSphWidth ld)) ->
  getNumBonds (nlist c) * getSphWidth ld <= UINT_BOUND ->
  fisnan f0 = false -> fisnan f_pi = false ->
  (forall x : F, flt f1 x = true \/ flt x (fsub f0 f1) = true -> fisnan (facos x) = true) ->
  forall i k b q,
    i < Nref c -> visited c i !! k = Some b -> (q < N.to_nat (getSphWidth ld))%nat ->
    exists rot theta phi,
      let rij := wrap (box c) (vsub (r c b.2) (r_ref c i)) in
      let z := dot rot.2 rij in
      let ratio := fdiv z (fsqrt (dot rij rij)) in
      frame c i (find_first_index (nlist c) i) (r_ref c i) = inr rot
      /\ bond_angles rot rij = (theta, phi)
      /\ cell (getSph ld')
           ((N.to_nat (find_first_index (nlist c) i) + k) * N.to_nat (getSphWidth ld) + q)
         = sph_eval (m_lmax ld) phi theta (m_negative_m ld) !! q
      /\ fisnan phi = false
      /\ (flt f1 ratio = true \/ flt ratio (fsub f0 f1) = true ->
          phi = if flt f0 z then f0 else f_pi)
      /\ (fisnan (facos ratio) = true -> phi = if flt f0 z then f0 else f_pi)
      /\ (fisnan (facos ratio) = false -> phi = facos ratio).
Proof.
  intros Hrun Hwidth Hnowrap Hzero Hpi Hdomain i k b q Hi Hb Hq.
  destruct (compute_cells ld ld' c Hrun Hwidth Hnowrap i Hi) as (rot & Hrot & Hcells).
  specialize (Hcells k b q Hb Hq). rewrite coefficients_angles in Hcells.
  set (rij := wrap (box c) (vsub (r c b.2) (r_ref c i))) in *.
  exists rot, (bond_angles rot rij).1, (bond_angles rot rij).2. cbn zeta.
  pose proof (bond_angles_phi_not_nan rot rij Hzero Hpi) as Hnum.
  pose proof (bond_angles_phi_replaced rot rij) as Hnan. cbn zeta in Hnan.
  split_and!; [done|by destruct (bond_angles rot rij)|done|done| |done|].
  - intros Hout. apply Hnan. by apply Hdomain.
  - intros Hok. destruct rot as [[r0 r1] r2]. unfold bond_angles. cbn [snd vz].
    cbn [snd] in Hok. by rewrite Hok.
Qed.

(** X16.  In a call that ends normally on a neighbour list sorted by
    reference index, with [find_first_index(i)] the offset of the first bond
    of [i] (any offset when [i] has no bond), the two loops go through all
    the bonds of [i] in the list, cut after the first [nNeigh] of them: the
    tensor of the LocalNeighborhood frame is accumulated over exactly their
    wrapped displacements, in order, and the [k]-th of them has its
    coefficients in slot [find_first_index(i) + k] of the buffer. *)
Theorem loops_visit_all_bonds (ld ld' : t F) (c : call F) (i : N) :
  compute ld c = (Done, ld') ->
  (forall phi theta,
     length (sph_eval (m_lmax ld) phi theta (m_negative_m ld))
     = N.to_nat (getSphWidth ld)) ->
  getNumBonds (nlist c) * getSphWidth ld <= UINT_BOUND ->
  i < Nref c ->
  StronglySorted (fun a b : N * N => a.1 <= b.1) (getNeighbors (nlist c)) ->
  (filter (fun b : N * N => b.1 = i) (getNeighbors (nlist c)) = []
   \/ (Forall (fun b : N * N => b.1 <> i)
         (take (N.to_nat (find_first_index (nlist c) i)) (getNeighbors (nlist c)))
       /\ exists j, getNeighbors (nlist c) !! N.to_nat (find_first_index (nlist c) i)
                    = Some (i, j))) ->
  let mine := take (N.to_nat (nNeigh c))
                (filter (fun b : N * N => b.1 = i) (getNeighbors (nlist c))) in
  neighborhood_tensor c i (find_first_index (nlist c) i) (r_ref c i)
  = foldl accumulate_bond zero_tensor
      ((fun b : N * N => wrap (box c) (vsub (r c b.2) (r_ref c i))) <$> mine)
  /\ exists rot, frame c i (find_first_index (nlist c) i) (r_ref c i) = inr rot
       /\ forall k b q, mine !! k = Some b -> (q < N.to_nat (getSphWidth ld))%nat ->
            cell (getSph ld')
              ((N.to_nat (find_first_index (nlist c) i) + k) * N.to_nat (getSphWidth ld) + q)
            = coefficients ld c rot (r_ref c i) b.2 !! q.
Proof.
  intros Hrun Hwidth Hnowrap Hi Hsorted Hfirst mine.
  pose proof (visited_filter c i Hsorted Hfirst) as Hvisited. fold mine in Hvisited.
  rewrite <- Hvisited. split.
  - unfold neighborhood_tensor. rewrite inertia_loop_foldl.
    by replace (find_first_index (nlist c) i + nNeigh c - find_first_index (nlist c) i)
      with (nNeigh c) by lia.
  - by apply (compute_cells ld ld' c).
Qed.

End Angles.

(** ** LocalDescriptors: runs on IEEE binary32 values *)

Section FloatRuns.
Import LocalDescriptors Pass.
#[local] Existing Instance Binary32.binary32_FloatOps.
#[local] Existing Instance Binary32.binary32_External.

(** The stand-in for [acos] is a not-a-number outside [-1, 1]. *)
Lemma acosf_domain (x : SpecFloat.spec_float) :
  flt f1 x = true \/ flt x (fsub f0 f1) = true -> fisnan (facos x) = true.
Proof.
  intros Hx. change (Binary32.is_nan (Binary32.acosf x) = true).
  unfold Binary32.acosf. destruct (Binary32.is_nan x); [done|].
  assert (SpecFloat.SFltb Binary32.one x
          || SpecFloat.SFltb x (SpecFloat.SFopp Binary32.one) = true) as ->
    by (apply orb_true_iff; exact Hx).
  done.
Qed.



Lemma polar_angle_clamped_witness :
  let ld : t SpecFloat.spec_float := construct 0 false in
  let c := Binary32.one_bond (Vec3 Binary32.zero Binary32.zero Binary32.zero) in
  let ld' := snd (compute ld c) in
  compute ld c = (Done, ld')
  /\ (forall phi theta : SpecFloat.spec_float,
        length (sph_eval (m_lmax ld) phi theta (m_negative_m ld))
        = N.to_nat (getSphWidth ld))
  /\ getNumBonds (nlist c) * getSphWidth ld <= UINT_BOUND
  /\ fisnan f0 = false /\ fisnan f_pi = false
  /\ (forall x : SpecFloat.spec_float,
        flt f1 x = true \/ flt x (fsub f0 f1) = true -> fisnan (facos x) = true)
  /\ 0 < Nref c /\ visited c 0 !! 0%nat = Some (0, 1) /\ (0 < N.to_nat (getSphWidth ld))%nat
  /\ exists rot theta phi,
       let rij := wrap (box c) (vsub (r c (0, 1).2) (r_ref c 0)) in
       let z := dot rot.2 rij in
       let ratio := fdiv z (fsqrt (dot rij rij)) in
       frame c 0 (find_first_index (nlist c) 0) (r_ref c 0) = inr rot
       /\ bond_angles rot rij = (theta, phi)
       /\ cell (getSph ld')
            ((N.to_nat (find_first_index (nlist c) 0) + 0) * N.to_nat (getSphWidth ld) + 0)
          = sph_eval (m_lmax ld) phi theta (m_negative_m ld) !! 0%nat
       /\ fisnan phi = false
       /\ (flt f1 ratio = true \/ flt ratio (fsub f0 f1) = true ->
           phi = if flt f0 z then f0 else f_pi)
       /\ (fisnan (facos ratio) = true -> phi = if flt f0 z then f0 else f_pi)
       /\ (fisnan (facos ratio) = false -> phi = facos ratio).
Proof.
  intros ld c ld'.
  assert (H1 : compute ld c = (Done, ld')) by (vm_compute; reflexivity).
  assert (H2 : forall phi theta : SpecFloat.spec_float,
            length (sph_eval (m_lmax ld) phi theta (m_negative_m ld))
            = N.to_nat (getSphWidth ld)) by (intros phi theta; reflexivity).
  assert (H3 : getNumBonds (nlist c) * getSphWidth ld <= UINT_BOUND) by discriminate.
  assert (H4 : fisnan f0 = false) by reflexivity.
  assert (H5 : fisnan f_pi = false) by reflexivity.
  assert (H6 : 0 < Nref c) by reflexivity.
  assert (H7 : visited c 0 !! 0%nat = Some (0, 1)) by reflexivity.
  assert (H8 : (0 < N.to_nat (getSphWidth ld))%nat) by (vm_compute; lia).
  split_and!; [exact H1|exact H2|exact H3|exact H4|exact H5|exact acosf_domain|exact H6
              |exact H7|exact H8|].
  exact (polar_angle_clamped ld ld' c H1 H2 H3 H4 H5 acosf_domain 0 0%nat (0, 1) 0%nat
           H6 H7 H8).
Defined.

(** C5, counterexample.  A bond in Global mode from the origin to the point
    [(0, 0, 2^100)] of an unbounded box is along the local z-axis with
    [z > 0]; [rsq] overflows to infinity, so the ratio [z / magR] is [+0],
    [acos] of it is [pi / 2], the guard is not taken and the evaluator
    receives [phi = pi / 2], not 0. *)
Lemma aligned_bond_not_clamped :
  exists ld' : t SpecFloat.spec_float,
    compute (construct 0 false)
      (Binary32.one_bond (Vec3 Binary32.zero Binary32.zero Binary32.huge))
    = (Done, ld')
    /\ visited (Binary32.one_bond (Vec3 Binary32.zero Binary32.zero Binary32.huge)) 0
       = [(0, 1)]
    /\ frame (Binary32.one_bond (Vec3 Binary32.zero Binary32.zero Binary32.huge)) 0
         (find_first_index
            (nlist (Binary32.one_bond (Vec3 Binary32.zero Binary32.zero Binary32.huge))) 0)
         (r_ref (Binary32.one_bond (Vec3 Binary32.zero Binary32.zero Binary32.huge)) 0)
       = inr (Vec3 f1 f0 f0, Vec3 f0 f1 f0, Vec3 f0 f0 f1)
    /\ wrap (box (Binary32.one_bond (Vec3 Binary32.zero Binary32.zero Binary32.huge)))
         (vsub (r (Binary32.one_bond (Vec3 Binary32.zero Binary32.zero Binary32.huge)) 1)
               (r_ref (Binary32.one_bond (Vec3 Binary32.zero Binary32.zero Binary32.huge)) 0))
       = Vec3 Binary32.zero Binary32.zero Binary32.huge
    /\ dot (Vec3 f1 f0 f0) (Vec3 Binary32.zero Binary32.zero Binary32.huge) = f0
    /\ dot (Vec3 f0 f1 f0) (Vec3 Binary32.zero Binary32.zero Binary32.huge) = f0
    /\ dot (Vec3 f0 f0 f1) (Vec3 Binary32.zero Binary32.zero Binary32.huge) = Binary32.huge
    /\ flt f0 Binary32.huge = true
    /\ fdiv Binary32.huge
         (fsqrt (dot (Vec3 Binary32.zero Binary32.zero Binary32.huge)
                     (Vec3 Binary32.zero Binary32.zero Binary32.huge)))
       = Binary32.zero
    /\ bond_angles (Vec3 f1 f0 f0, Vec3 f0 f1 f0, Vec3 f0 f0 f1)
         (Vec3 Binary32.zero Binary32.zero Binary32.huge)
       = (Binary32.zero, Binary32.half_pi32)
    /\ getSph ld' = Some [Complex Binary32.half_pi32 Binary32.zero]
    /\ Binary32.half_pi32 <> f0.
Proof.
  eexists. split; [vm_compute; reflexivity|].
  split_and!; try (vm_compute; reflexivity). vm_compute. discriminate.
Qed.

End FloatRuns.

Section VisitedRuns.
Import LocalDescriptors Pass IntegerModel.

Lemma loops_visit_all_bonds_witness :
  let ld : t Z := construct 1 false in
  let c := call_on [(0, 1); (0, 1); (1, 0); (2, 1)] 3 None LocalNeighborhood in
  let ld' := after ld c in
  let bonds := getNeighbors (nlist c) in
  let first := find_first_index (nlist c) 1 in
  let mine := take (N.to_nat (nNeigh c)) (filter (fun b : N * N => b.1 = 1) bonds) in
  compute ld c = (Done, ld')
  /\ (forall phi theta : Z,
        length (sph_eval (m_lmax ld) phi theta (m_negative_m ld))
        = N.to_nat (getSphWidth ld))
  /\ getNumBonds (nlist c) * getSphWidth ld <= UINT_BOUND
  /\ 1 < Nref c
  /\ StronglySorted (fun a b : N * N => a.1 <= b.1) bonds
  /\ (Forall (fun b : N * N => b.1 <> 1) (take (N.to_nat first) bonds)
      /\ exists j, bonds !! N.to_nat first = Some (1, j))
  /\ mine = [(1, 0)]
  /\ neighborhood_tensor c 1 first (r_ref c 1)
     = foldl accumulate_bond zero_tensor
         ((fun b : N * N => wrap (box c) (vsub (r c b.2) (r_ref c 1))) <$> mine)
  /\ exists rot, frame c 1 first (r_ref c 1) = inr rot
       /\ forall k b q, mine !! k = Some b -> (q < N.to_nat (getSphWidth ld))%nat ->
            cell (getSph ld') ((N.to_nat first + k) * N.to_nat (getSphWidth ld) + q)
            = coefficients ld c rot (r_ref c 1) b.2 !! q.
Proof.
  intros ld c ld' bonds first mine.
  assert (H1 : compute ld c = (Done, ld')) by (vm_compute; reflexivity).
  assert (H2 : forall phi theta : Z,
            length (sph_eval (m_lmax ld) phi theta (m_negative_m ld))
            = N.to_nat (getSphWidth ld)) by (intros phi theta; reflexivity).
  assert (H3 : getNumBonds (nlist c) * getSphWidth ld <= UINT_BOUND) by discriminate.
  assert (H4 : 1 < Nref c) by reflexivity.
  assert (H5 : StronglySorted (fun a b : N * N => a.1 <= b.1) bonds)
    by (repeat (constructor; cbn; try lia)).
  assert (H6 : Forall (fun b : N * N => b.1 <> 1) (take (N.to_nat first) bonds)
               /\ exists j, bonds !! N.to_nat first = Some (1, j)).
  { split; [repeat (constructor; cbn; try lia)|by exists 0]. }
  split_and!; [exact H1|exact H2|exact H3|exact H4|exact H5|exact (proj1 H6)
              |exact (proj2 H6)|vm_compute; reflexivity|..];
    apply (loops_visit_all_bonds ld ld' c 1 H1 H2 H3 H4 H5 (or_intror H6)).
Defined.

End VisitedRuns.
